(** * tinyevents: a shallow embedding of [tinyevents.hpp]

    The header defines two classes, [Dispatcher] and [Token].  A
    [Dispatcher] keeps a registry of listeners indexed by message type, a
    list of deferred dispatches, the set of once-listeners that are in the
    middle of their callback, and a 64-bit counter that names listeners.

    Listeners are C++ closures that may call back into the dispatcher.  They
    are represented by what they do to it: a listener is a function from the
    message it receives to the sequence of dispatcher calls it performs
    ([listen], [listenOnce], [dispatch], [queue], [remove], [hasListener]),
    each call continuing with the value the previous one returned.
    Callbacks return (they do not throw) and do not call [process()].
    Running a
    dispatch yields the new dispatcher and a call tree recording which
    entries were invoked and what happened inside each invocation.

    [dispatch] takes a bound on the nesting depth of dispatches and
    [process] a bound on the number of closures it drains; [None] stands for
    a run that needs more, as a callback that dispatches its own message
    type without end does. *)

From stdpp Require Import gmap list sorting.

Local Set Warnings "-register-all".

(** ** Data model *)

(** [std::type_index]: the key of the registry. *)
Abbreviation TypeId := positive.

(** A message: its static type [T] and its value. *)
Record Msg := mkMsg { mtype : TypeId; mvalue : Z }.

(** [std::uint64_t] arithmetic. *)
Definition uint64_modulus : Z := 2 ^ 64.
Definition uint64_succ (n : Z) : Z := (n + 1) `mod` uint64_modulus.

(** What a user callback does with the dispatcher it captured: a sequence
    of calls, each continuing with the value the call returned.  There is
    no [process()] among them: a [process()] issued while another
    [process()] is iterating clears the list under the outer iterator, which
    C++ leaves undefined. *)
Inductive Prog : Type :=
  | Return
  | CallListen (ty : TypeId) (listener : Msg → Prog) (priority : Z) (k : Z → Prog)
  | CallListenOnce (ty : TypeId) (listener : Msg → Prog) (priority : Z)
      (k : Z → Prog)
  | CallDispatch (msg : Msg) (k : Prog)
  | CallQueue (msg : Msg) (k : Prog)
  | CallRemove (handle : Z) (k : Prog)
  | CallHasListener (handle : Z) (k : bool → Prog).

(** [std::function<void(const T &)>] as supplied by user code. *)
Abbreviation UserFn := (Msg → Prog).

(** What [listen] receives: user code, or the lambda built by [listenOnce]
    with its captured [listenerId]. *)
Inductive Listener : Type :=
  | User (listener : UserFn)
  | OnceWrapper (listenerId : Z) (listener : UserFn).

(** [struct ListenerEntry]; [callback] is the type-erasing lambda of
    [addListener], which only forwards to the listener it captured.  The
    [int priority] is only ever compared. *)
Record ListenerEntry := mkEntry {
  handle : Z;
  priority : Z;
  callback : Listener
}.

(** [class Dispatcher].  A queued closure [[msg](Dispatcher &d) {
    d.dispatch(msg); }] is determined by the message it captured. *)
Record Dispatcher := mkDispatcher {
  listenersByType : gmap TypeId (list ListenerEntry);
  queuedDispatches : list Msg;
  listenersScheduledForRemoval : gset Z;
  nextListenerId : Z
}.

(** [Dispatcher() = default]. *)
Definition newDispatcher : Dispatcher := mkDispatcher ∅ [] ∅ 0.

Definition set_listenersByType (m : gmap TypeId (list ListenerEntry))
    (d : Dispatcher) : Dispatcher :=
  mkDispatcher m (queuedDispatches d) (listenersScheduledForRemoval d)
    (nextListenerId d).

Definition set_queuedDispatches (q : list Msg) (d : Dispatcher) : Dispatcher :=
  mkDispatcher (listenersByType d) q (listenersScheduledForRemoval d)
    (nextListenerId d).

Definition set_scheduled (p : gset Z) (d : Dispatcher) : Dispatcher :=
  mkDispatcher (listenersByType d) (queuedDispatches d) p (nextListenerId d).

(** The call tree of a run. *)
Inductive Ev : Type :=
  | EvFire (entry : ListenerEntry) (msg : Msg) (inner : list Ev)
      (* [dispatch] called [entry.callback(&msg)] *)
  | EvQueue (msg : Msg)
      (* a callback called [queue(msg)] *)
  | EvDrain (msg : Msg) (inner : list Ev).
      (* [process] called the queued closure holding [msg] *)

(** ** Dispatcher operations without callbacks *)

(** [std::find_if]: position of the first element satisfying [p], or the
    length of the list. *)
Fixpoint find_if {A} (p : A → bool) (l : list A) : nat :=
  match l with
  | [] => 0
  | x :: l' => if p x then 0 else S (find_if p l')
  end.

(** [std::vector::insert(it, x)]. *)
Definition vector_insert {A} (it : nat) (x : A) (l : list A) : list A :=
  take it l ++ x :: drop it l.

(** [addListener<T>]. *)
Definition addListener (ty : TypeId) (listener : Listener) (prio : Z)
    (d : Dispatcher) : Dispatcher * Z :=
  let listeners := default [] (listenersByType d !! ty) in
  let listenerHandle := nextListenerId d in
  let entry := mkEntry listenerHandle prio listener in
  let it := find_if (λ e, bool_decide (priority e < prio)%Z) listeners in
  (mkDispatcher (<[ty := vector_insert it entry listeners]> (listenersByType d))
     (queuedDispatches d) (listenersScheduledForRemoval d)
     (uint64_succ (nextListenerId d)),
   listenerHandle).

(** [listen<T>], both overloads: the member-function one wraps the method
    in a closure and is the same call. *)
Definition listen (ty : TypeId) (listener : Listener) (prio : Z)
    (d : Dispatcher) : Dispatcher * Z :=
  addListener ty listener prio d.

(** [listenOnce<T>], both overloads. *)
Definition listenOnce (ty : TypeId) (listener : UserFn) (prio : Z)
    (d : Dispatcher) : Dispatcher * Z :=
  let listenerId := nextListenerId d in
  listen ty (OnceWrapper listenerId listener) prio d.

(** [queue<T>]. *)
Definition queue (msg : Msg) (d : Dispatcher) : Dispatcher :=
  set_queuedDispatches (queuedDispatches d ++ [msg]) d.

(** The erase/remove_if idiom on one bucket. *)
Definition erase_handle (h : Z) (vec : list ListenerEntry) : list ListenerEntry :=
  filter (λ e, handle e ≠ h) vec.

(** [remove]. *)
Definition remove (h : Z) (d : Dispatcher) : Dispatcher :=
  if decide (h ∈ listenersScheduledForRemoval d) then d
  else set_listenersByType (erase_handle h <$> listenersByType d) d.

(** Some bucket holds an entry with handle [h]. *)
Definition registered (h : Z) (d : Dispatcher) : Prop :=
  map_Exists (λ _ vec, Exists (λ e, handle e = h) vec) (listenersByType d).

Global Instance registered_dec h d : Decision (registered h d).
Proof. unfold registered. apply _. Defined.

(** [hasListener]. *)
Definition hasListener (h : Z) (d : Dispatcher) : bool :=
  if decide (h ∈ listenersScheduledForRemoval d) then false
  else bool_decide (registered h d).

(** ** Running callbacks *)

Abbreviation Run := (option (Dispatcher * list Ev)).

Section Callbacks.
(** The meaning of a nested [dispatch] call. *)
Variable nested_dispatch : Msg → Dispatcher → Run.

Fixpoint run_prog (p : Prog) (d : Dispatcher) : Run :=
  match p with
  | Return => Some (d, [])
  | CallListen ty f prio k =>
      let r := listen ty (User f) prio d in run_prog (k r.2) r.1
  | CallListenOnce ty f prio k =>
      let r := listenOnce ty f prio d in run_prog (k r.2) r.1
  | CallDispatch msg k =>
      match nested_dispatch msg d with
      | None => None
      | Some (d1, t1) =>
          match run_prog k d1 with
          | None => None
          | Some (d2, t2) => Some (d2, t1 ++ t2)
          end
      end
  | CallQueue msg k =>
      match run_prog k (queue msg d) with
      | None => None
      | Some (d2, t2) => Some (d2, EvQueue msg :: t2)
      end
  | CallRemove h k => run_prog k (remove h d)
  | CallHasListener h k => run_prog (k (hasListener h d)) d
  end.

(** Calling a listener on [msg]; for the once-wrapper, the four
    statements of the lambda in [listenOnce]. *)
Definition call_listener (l : Listener) (msg : Msg) (d : Dispatcher) : Run :=
  match l with
  | User f => run_prog (f msg) d
  | OnceWrapper listenerId f =>
      let d1 := set_scheduled ({[listenerId]} ∪ listenersScheduledForRemoval d) d in
      match run_prog (f msg) d1 with
      | None => None
      | Some (d2, t) =>
          let d3 := set_scheduled (listenersScheduledForRemoval d2 ∖ {[listenerId]}) d2 in
          Some (remove listenerId d3, t)
      end
  end.

(** The range-for of [dispatch] over [listenersCopy]. *)
Fixpoint dispatch_loop (listenersCopy : list ListenerEntry) (msg : Msg)
    (d : Dispatcher) : Run :=
  match listenersCopy with
  | [] => Some (d, [])
  | entry :: rest =>
      if decide (handle entry ∈ listenersScheduledForRemoval d)
      then dispatch_loop rest msg d
      else
        match call_listener (callback entry) msg d with
        | None => None
        | Some (d1, t1) =>
            match dispatch_loop rest msg d1 with
            | None => None
            | Some (d2, t2) => Some (d2, EvFire entry msg t1 :: t2)
            end
        end
  end.

Definition dispatch_body (msg : Msg) (d : Dispatcher) : Run :=
  match listenersByType d !! mtype msg with
  | None => Some (d, [])
  | Some listenersCopy => dispatch_loop listenersCopy msg d
  end.
End Callbacks.

(** [dispatch<T>]; [depth] bounds how deeply callbacks may nest dispatches,
    [None] stands for a run that recurses deeper. *)
Fixpoint dispatch (depth : nat) (msg : Msg) (d : Dispatcher) : Run :=
  match depth with
  | 0 => None
  | S depth' => dispatch_body (dispatch depth') msg d
  end.

(** The range-for of [process] over the [std::list]; [it] is the position
    of the iterator.  Callbacks only append to the list, so positions are
    stable and the end is wherever the list ends when the iterator gets
    there.  [steps] bounds the number of closures drained. *)
Fixpoint process_loop (steps depth : nat) (it : nat) (d : Dispatcher) : Run :=
  match steps with
  | 0 => None
  | S steps' =>
      match queuedDispatches d !! it with
      | None => Some (d, [])
      | Some msg =>
          match dispatch depth msg d with
          | None => None
          | Some (d1, t1) =>
              match process_loop steps' depth (S it) d1 with
              | None => None
              | Some (d2, t2) => Some (d2, EvDrain msg t1 :: t2)
              end
          end
      end
  end.

(** [process]. *)
Definition process (steps depth : nat) (d : Dispatcher) : Run :=
  match process_loop steps depth 0 d with
  | None => None
  | Some (d1, t) => Some (set_queuedDispatches [] d1, t)
  end.

(** ** Reading a call tree *)

(** Entries invoked by the pass itself, in order, and their handles. *)
Fixpoint invoked (t : list Ev) : list ListenerEntry :=
  match t with
  | [] => []
  | EvFire entry _ _ :: t' => entry :: invoked t'
  | _ :: t' => invoked t'
  end.

Definition fired (t : list Ev) : list Z := handle <$> invoked t.

(** Messages dispatched by [process], in order. *)
Fixpoint drained (t : list Ev) : list Msg :=
  match t with
  | [] => []
  | EvDrain m _ :: t' => m :: drained t'
  | _ :: t' => drained t'
  end.

(** Messages passed to [queue] anywhere in the tree, in order. *)
Fixpoint queued_ev (e : Ev) : list Msg :=
  match e with
  | EvFire _ _ inner => flat_map queued_ev inner
  | EvQueue m => [m]
  | EvDrain _ inner => flat_map queued_ev inner
  end.
Definition queued (t : list Ev) : list Msg := flat_map queued_ev t.

(** Number of invocations of the entry [h] anywhere in the tree. *)
Fixpoint count_fired_ev (h : Z) (e : Ev) : nat :=
  match e with
  | EvFire entry _ inner =>
      (if decide (handle entry = h) then 1 else 0)
      + list_sum (map (count_fired_ev h) inner)
  | EvQueue _ => 0
  | EvDrain _ inner => list_sum (map (count_fired_ev h) inner)
  end.
Definition count_fired (h : Z) (t : list Ev) : nat :=
  list_sum (map (count_fired_ev h) t).

(** Every invocation in the tree, in the order the calls start, with the
    nesting depth of the pass that made it. *)
Fixpoint calls_ev (depth : nat) (e : Ev) : list (nat * Z) :=
  match e with
  | EvFire entry _ inner =>
      (depth, handle entry) :: flat_map (calls_ev (S depth)) inner
  | EvQueue _ => []
  | EvDrain _ inner => flat_map (calls_ev depth) inner
  end.
Definition calls (t : list Ev) : list (nat * Z) := flat_map (calls_ev 0) t.


(** ** Top-level calls *)

(** Calls that run no callback, as a script; [run_setup] collects the
    handles returned by the subscribing calls. *)
Inductive Setup : Type :=
  | DoListen (ty : TypeId) (listener : UserFn) (prio : Z)
  | DoListenOnce (ty : TypeId) (listener : UserFn) (prio : Z)
  | DoRemove (h : Z).

Fixpoint run_setup (script : list Setup) (d : Dispatcher) : Dispatcher * list Z :=
  match script with
  | [] => (d, [])
  | DoListen ty f prio :: script' =>
      let r := listen ty (User f) prio d in
      let r' := run_setup script' r.1 in (r'.1, r.2 :: r'.2)
  | DoListenOnce ty f prio :: script' =>
      let r := listenOnce ty f prio d in
      let r' := run_setup script' r.1 in (r'.1, r.2 :: r'.2)
  | DoRemove h :: script' => run_setup script' (remove h d)
  end.

(** The public operations of [Dispatcher]. *)
Inductive Op : Type :=
  | OpListen (ty : TypeId) (listener : UserFn) (prio : Z)
  | OpListenOnce (ty : TypeId) (listener : UserFn) (prio : Z)
  | OpDispatch (msg : Msg)
  | OpQueue (msg : Msg)
  | OpProcess
  | OpRemove (h : Z)
  | OpHasListener (h : Z).

Definition exec (steps depth : nat) (op : Op) (d : Dispatcher) : option Dispatcher :=
  match op with
  | OpListen ty f prio => Some (listen ty (User f) prio d).1
  | OpListenOnce ty f prio => Some (listenOnce ty f prio d).1
  | OpDispatch msg => fst <$> dispatch depth msg d
  | OpQueue msg => Some (queue msg d)
  | OpProcess => fst <$> process steps depth d
  | OpRemove h => Some (remove h d)
  | OpHasListener h => let _ := hasListener h d in Some d
  end.

Fixpoint exec_all (steps depth : nat) (ops : list Op) (d : Dispatcher)
    : option Dispatcher :=
  match ops with
  | [] => Some d
  | op :: ops' =>
      match exec steps depth op d with
      | None => None
      | Some d1 => exec_all steps depth ops' d1
      end
  end.

(** ** Token *)

(** Dispatchers live at addresses; a [Token] holds the address of its
    dispatcher ([std::reference_wrapper<Dispatcher>]). *)
Abbreviation Heap := (gmap nat Dispatcher).

Record Token := mkToken {
  dispatcher : nat;
  _handle : Z;
  holdsResource : bool
}.

(** [Token(Dispatcher &, handle)]. *)
Definition Token_new (disp : nat) (h : Z) : Token := mkToken disp h true.

(** [~Token()]. *)
Definition Token_destroy (tok : Token) (heap : Heap) : Heap :=
  if holdsResource tok then alter (remove (_handle tok)) (dispatcher tok) heap
  else heap.

(** [Token(Token &&other)]: the new token and what is left of [other]. *)
Definition Token_move (other : Token) : Token * Token :=
  (mkToken (dispatcher other) (_handle other) (holdsResource other),
   mkToken (dispatcher other) (_handle other) false).

(** [operator=(Token &&other)] on two distinct objects ([this != &other]):
    the assigned token, what is left of [other], and the heap. *)
Definition Token_move_assign (this other : Token) (heap : Heap)
    : Token * Token * Heap :=
  let heap' :=
    if holdsResource this then alter (remove (_handle this)) (dispatcher this) heap
    else heap in
  (mkToken (dispatcher other) (_handle other) (holdsResource other),
   mkToken (dispatcher other) (_handle other) false,
   heap').

(** [Token::handle()]. *)
Definition Token_handle (tok : Token) : Z := _handle tok.

(** [Token::remove()]. *)
Definition Token_remove (tok : Token) (heap : Heap) : Token * Heap :=
  (mkToken (dispatcher tok) (_handle tok) false,
   alter (remove (_handle tok)) (dispatcher tok) heap).

(** ** Invariants of the registry *)

(** Buckets are ordered by descending priority. *)
Definition descending (vec : list ListenerEntry) : Prop :=
  StronglySorted (λ a b, (priority b ≤ priority a)%Z) vec.

(** A once-wrapper sits in the entry whose handle it captured. *)
Definition entry_ok (e : ListenerEntry) : Prop :=
  match callback e with
  | User _ => True
  | OnceWrapper listenerId _ => listenerId = handle e
  end.

Definition bucket_ok (vec : list ListenerEntry) : Prop :=
  descending vec ∧ Forall entry_ok vec.

Definition wf (d : Dispatcher) : Prop :=
  map_Forall (λ _ vec, bucket_ok vec) (listenersByType d).

(** Callbacks that neither dispatch nor queue, and subscribe only callbacks
    of the same kind. *)
Inductive calm : Prog → Prop :=
  | calm_return : calm Return
  | calm_listen ty f prio k :
      (∀ m, calm (f m)) → (∀ h, calm (k h)) → calm (CallListen ty f prio k)
  | calm_listenOnce ty f prio k :
      (∀ m, calm (f m)) → (∀ h, calm (k h)) → calm (CallListenOnce ty f prio k)
  | calm_remove h k : calm k → calm (CallRemove h k)
  | calm_hasListener h k : (∀ b, calm (k b)) → calm (CallHasListener h k).

Definition calm_fn (f : UserFn) : Prop := ∀ m, calm (f m).

Definition calm_listener (l : Listener) : Prop :=
  match l with User f => calm_fn f | OnceWrapper _ f => calm_fn f end.

Definition calm_registry (d : Dispatcher) : Prop :=
  map_Forall (λ _ vec, Forall (λ e, calm_listener (callback e)) vec)
    (listenersByType d).

(** The listeners [listen] is given by the public interface: user code, or a
    once-wrapper that captured the handle about to be assigned. *)
Definition fits (l : Listener) (d : Dispatcher) : Prop :=
  match l with
  | User _ => True
  | OnceWrapper listenerId _ => listenerId = nextListenerId d
  end.

(** What one run does to the dispatcher it started from: the deferred list
    grows by exactly the messages queued during the run, and from a
    well-formed dispatcher the run ends in a well-formed one with the same
    set of scheduled removals. *)
Definition run_inv (d : Dispatcher) (r : Dispatcher * list Ev) : Prop :=
  queuedDispatches r.1 = queuedDispatches d ++ queued r.2 ∧
  (wf d →
     wf r.1 ∧ listenersScheduledForRemoval r.1 = listenersScheduledForRemoval d).

(** A once-wrapper is only ever called when its handle is not scheduled. *)
Definition callable (e : ListenerEntry) (d : Dispatcher) : Prop :=
  handle e ∉ listenersScheduledForRemoval d.

(** A calm run: it returns, queues nothing and leaves a calm registry. *)
Definition calm_run (d : Dispatcher) (r : Run) : Prop :=
  ∃ d' t, r = Some (d', t) ∧ calm_registry d' ∧ queued t = []
          ∧ queuedDispatches d' = queuedDispatches d.


(** [queue] called once per message of [msgs], in order. *)
Definition queue_each (msgs : list Msg) (d : Dispatcher) : Dispatcher :=
  foldl (λ d' m, queue m d') d msgs.

(** Number of subscribing calls in a script. *)
Fixpoint subscriptions (script : list Setup) : nat :=
  match script with
  | [] => 0
  | DoRemove _ :: script' => subscriptions script'
  | _ :: script' => S (subscriptions script')
  end.

Definition valid_counter (d : Dispatcher) : Prop :=
  (0 ≤ nextListenerId d < uint64_modulus)%Z.

(** ** Concrete dispatchers used to exercise the theorems *)

Definition Ping : TypeId := 1%positive.
Definition Pong : TypeId := 2%positive.
Definition ping : Msg := mkMsg Ping 0.
Definition pong : Msg := mkMsg Pong 7.

(** Decide a closed decidable proposition by evaluation. *)
Ltac by_compute :=
  match goal with |- ?P => apply (bool_decide_unpack P); vm_compute; exact I end.

(** The dispatcher and call tree a run ended with. *)
Definition result_of (r : Run) : Dispatcher * list Ev :=
  default (newDispatcher, []) r.

Definition silent : UserFn := λ _, Return.

(** [A] (priority 10), then [B] (priority 5) on [Ping]. *)
Definition two_listeners : Dispatcher :=
  (listen Ping (User silent) 10 newDispatcher).1.

(** [L1] (priority 10) removes [L2] (handle 1, priority 5); a third listener
    subscribes a newcomer while the pass is running. *)
Definition remover_scene : Dispatcher :=
  let d1 := (listen Ping (User (λ _, CallRemove 1 Return)) 10 newDispatcher).1 in
  let d2 := (listen Ping (User silent) 5 d1).1 in
  (listen Ping (User (λ _, CallListen Ping silent 20 (λ _, Return))) 0 d2).1.

(** A listener on [Ping] that queues a [Pong] each time it runs. *)
Definition requeue_scene : Dispatcher :=
  let d1 := (listen Ping (User (λ _, CallQueue pong Return)) 0 newDispatcher).1 in
  let d2 := (listen Pong (User silent) 0 d1).1 in
  queue ping d2.

(** A dispatcher whose counter holds the last 64-bit value. *)
Definition last_handle : Dispatcher :=
  mkDispatcher ∅ [] ∅ (uint64_modulus - 1).

Definition redispatch : UserFn := λ m, CallDispatch m Return.

(** [X = listenOnce<Ping>(redispatch, 10)] gets handle 0 and
    [O = listenOnce<Ping>(silent, 5)] gets handle 1. *)
Definition once_scene : Dispatcher :=
  (listenOnce Ping silent 5 (listenOnce Ping redispatch 10 newDispatcher).1).1.


(** ** Further invariants and callback classes *)

(** Every handle held by an entry has been handed out: it is below the
    counter. *)
Definition handles_below (d : Dispatcher) : Prop :=
  ∀ h, registered h d → (0 ≤ h < nextListenerId d)%Z.

(** No two entries of the registry share a handle, within a bucket or
    across buckets. *)
Definition unique_handles (d : Dispatcher) : Prop :=
  (∀ ty vec, listenersByType d !! ty = Some vec → NoDup (handle <$> vec))
  ∧ (∀ ty1 ty2 vec1 vec2 e1 e2,
       ty1 ≠ ty2 →
       listenersByType d !! ty1 = Some vec1 → listenersByType d !! ty2 = Some vec2 →
       e1 ∈ vec1 → e2 ∈ vec2 → handle e1 ≠ handle e2).

(** Descending priority and, among equal priorities, ascending handle. *)
Definition registration_order (vec : list ListenerEntry) : Prop :=
  StronglySorted
    (λ a b, (priority b < priority a)%Z
            ∨ (priority b = priority a ∧ (handle a < handle b)%Z)) vec.

(** What a dispatcher built by subscriptions and removals satisfies until
    its counter wraps. *)
Definition tidy (d : Dispatcher) : Prop :=
  valid_counter d ∧ handles_below d ∧ unique_handles d
  ∧ ∀ ty vec, listenersByType d !! ty = Some vec → registration_order vec.

(** Two subscriptions of equal priority, a removal, and more. *)
Definition setup_script : list Setup :=
  [DoListen Ping silent 3; DoListen Ping silent 3; DoRemove 0;
   DoListenOnce Pong silent 0; DoListen Ping silent 9; DoListen Ping silent 3].


(** A once-listener that asks about its own handle and then tries to remove
    itself; it queues a [Pong] if it is told that it is still subscribed. *)
Definition introspective : UserFn :=
  λ _, CallHasListener 0
         (λ b, CallRemove 0 (if b then CallQueue pong Return else Return)).

(** Callbacks that subscribe nothing, whatever else they do. *)
Inductive steady : Prog → Prop :=
  | steady_return : steady Return
  | steady_dispatch msg k : steady k → steady (CallDispatch msg k)
  | steady_queue msg k : steady k → steady (CallQueue msg k)
  | steady_remove h k : steady k → steady (CallRemove h k)
  | steady_hasListener h k : (∀ b, steady (k b)) → steady (CallHasListener h k).

Definition steady_listener (l : Listener) : Prop :=
  match l with User f | OnceWrapper _ f => ∀ m, steady (f m) end.

Definition steady_registry (d : Dispatcher) : Prop :=
  map_Forall (λ _ vec, Forall (λ e, steady_listener (callback e)) vec)
    (listenersByType d).

(** A run among callbacks that subscribe nothing: the registry only loses
    entries. *)
Definition shrinks (d d' : Dispatcher) : Prop :=
  steady_registry d' ∧ ∀ h, registered h d' → registered h d.

(** [Token::operator=(Token &&other)] with its guard: [this] and [other]
    are the addresses of the two token objects; [None] when one of them is
    not the address of a token. *)
Definition Token_assign (this other : nat) (tokens : gmap nat Token) (heap : Heap)
    : option (gmap nat Token * Heap) :=
  match tokens !! this, tokens !! other with
  | Some t, Some o =>
      if decide (this = other) then Some (tokens, heap)
      else
        let r := Token_move_assign t o heap in
        Some (<[other := r.1.2]> (<[this := r.1.1]> tokens), r.2)
  | _, _ => None
  end.

(** Token 7 owns handle 0 and token 8 owns handle 1, both on the dispatcher
    at address 4. *)
Definition two_tokens : gmap nat Token :=
  <[7 := Token_new 4 0]> (<[8 := Token_new 4 1]> ∅).

Definition token_heap : Heap :=
  {[4 := (listen Ping (User silent) 5 two_listeners).1]}.

(** * Proofs *)

(** ** Facts about [find_if], [vector_insert] and [erase_handle] *)

Lemma find_if_take {A} (p : A → bool) (l : list A) :
  Forall (λ x, p x = false) (take (find_if p l) l).
Proof.
  induction l as [|x l IH]; simpl; [constructor|].
  destruct (p x) eqn:Hp; simpl; [constructor|].
  constructor; done.
Qed.

Lemma find_if_drop {A} (p : A → bool) (l : list A) :
  match drop (find_if p l) l with
  | [] => True
  | y :: _ => p y = true
  end.
Proof.
  induction l as [|x l IH]; simpl; [done|].
  destruct (p x) eqn:Hp; simpl; done.
Qed.

Lemma descending_below_head (y : ListenerEntry) (r : list ListenerEntry) (p : Z) :
  descending (y :: r) → (priority y < p)%Z → Forall (λ e, (priority e < p)%Z) (y :: r).
Proof.
  intros Hs Hy. apply StronglySorted_inv in Hs as [_ Hall].
  constructor; [done|].
  eapply Forall_impl; [exact Hall|]. simpl. intros e He. lia.
Qed.

(** Where [addListener] puts the new entry: after every entry whose priority
    is at least the new one, before every entry of lower priority. *)
Lemma insert_position (prio : Z) (vec : list ListenerEntry) :
  descending vec →
  let it := find_if (λ e, bool_decide (priority e < prio)%Z) vec in
  Forall (λ e, (prio ≤ priority e)%Z) (take it vec) ∧
  Forall (λ e, (priority e < prio)%Z) (drop it vec).
Proof.
  intros Hs it. split.
  - eapply Forall_impl; [apply find_if_take|]. simpl.
    intros e He. apply bool_decide_eq_false in He. lia.
  - pose proof (find_if_drop (λ e, bool_decide (priority e < prio)%Z) vec) as Hd.
    fold it in Hd.
    assert (descending (drop it vec)) as Hs'.
    { rewrite <- (take_drop it vec) in Hs. by apply StronglySorted_app_1_r in Hs. }
    destruct (drop it vec) as [|y r]; [constructor|].
    apply bool_decide_eq_true in Hd. by apply descending_below_head.
Qed.

Lemma insert_descending (entry : ListenerEntry) (vec : list ListenerEntry) :
  descending vec →
  descending
    (vector_insert (find_if (λ e, bool_decide (priority e < priority entry)%Z) vec)
       entry vec).
Proof.
  intros Hs.
  destruct (insert_position (priority entry) vec Hs) as [Hl Hr].
  set (it := find_if _ vec) in *. unfold vector_insert.
  pose proof Hs as Hs0. rewrite <- (take_drop it vec) in Hs0.
  apply StronglySorted_app in Hs0 as (Hcross & Hs1 & Hs2).
  apply StronglySorted_app; split_and!.
  - intros a b Ha Hb. apply elem_of_cons in Hb as [->|Hb].
    + by eapply (proj1 (Forall_forall _ _) Hl).
    + by apply Hcross.
  - done.
  - constructor; [done|]. eapply Forall_impl; [exact Hr|]. simpl. intros; lia.
Qed.

Lemma erase_descending (h : Z) (vec : list ListenerEntry) :
  descending vec → descending (erase_handle h vec).
Proof.
  unfold descending, erase_handle. induction 1 as [|x l Hs IH Hall]; [constructor|].
  rewrite filter_cons. case_decide; [|done].
  constructor; [done|]. apply Forall_forall. intros y Hy.
  apply list_elem_of_filter in Hy as [_ Hy].
  by eapply (proj1 (Forall_forall _ _) Hall).
Qed.

Lemma erase_handle_id (h : Z) (vec : list ListenerEntry) :
  ¬ Exists (λ e, handle e = h) vec → erase_handle h vec = vec.
Proof.
  intros Hn. unfold erase_handle. induction vec as [|x l IH]; [done|].
  rewrite filter_cons. case_decide as Hx.
  - f_equal. apply IH. intros He. apply Hn. by right.
  - exfalso. apply Hn. left. by destruct (decide (handle x = h)).
Qed.

(** ** The invariants are kept by every call *)

Lemma wf_new : wf newDispatcher.
Proof. unfold wf, newDispatcher; simpl. apply map_Forall_empty. Qed.

Lemma wf_addListener ty l prio d :
  wf d → fits l d → wf (addListener ty l prio d).1.
Proof.
  intros Hwf Hfit. unfold wf, addListener; simpl.
  apply map_Forall_insert_2; [|done].
  assert (bucket_ok (default [] (listenersByType d !! ty))) as [Hs Hok].
  { destruct (listenersByType d !! ty) as [vec|] eqn:Hb; simpl.
    - by apply (Hwf ty).
    - split; constructor. }
  split.
  - by apply (insert_descending (mkEntry (nextListenerId d) prio l)).
  - unfold vector_insert. apply Forall_app; split; [by apply Forall_take|].
    constructor; [|by apply Forall_drop].
    unfold entry_ok; simpl. by destruct l.
Qed.

Lemma wf_listen_user ty f prio d : wf d → wf (listen ty (User f) prio d).1.
Proof. intros. by apply wf_addListener. Qed.

Lemma wf_listenOnce ty f prio d : wf d → wf (listenOnce ty f prio d).1.
Proof. intros. by apply wf_addListener. Qed.

Lemma wf_remove h d : wf d → wf (remove h d).
Proof.
  intros Hwf. unfold remove. case_decide; [done|].
  unfold wf; simpl. apply map_Forall_fmap.
  eapply map_Forall_impl; [exact Hwf|]. simpl.
  intros ty vec [Hs Hok]. split; [by apply erase_descending|].
  apply Forall_forall. intros e He. apply list_elem_of_filter in He as [_ He].
  by eapply (proj1 (Forall_forall _ _) Hok).
Qed.

Lemma scheduled_addListener ty l prio d :
  listenersScheduledForRemoval (addListener ty l prio d).1
  = listenersScheduledForRemoval d.
Proof. done. Qed.

Lemma scheduled_remove h d :
  listenersScheduledForRemoval (remove h d) = listenersScheduledForRemoval d.
Proof. unfold remove. by case_decide. Qed.

Lemma queued_remove h d : queuedDispatches (remove h d) = queuedDispatches d.
Proof. unfold remove. by case_decide. Qed.

Lemma queued_app t1 t2 : queued (t1 ++ t2) = queued t1 ++ queued t2.
Proof. apply flat_map_app. Qed.

Lemma run_inv_refl d : run_inv d (d, []).
Proof. split; simpl; [by rewrite app_nil_r|done]. Qed.

Lemma run_inv_seq d d1 t1 d2 t2 :
  run_inv d (d1, t1) → run_inv d1 (d2, t2) → run_inv d (d2, t1 ++ t2).
Proof.
  intros [Hq1 Hw1] [Hq2 Hw2]; simpl in *. split; simpl.
  - by rewrite Hq2, Hq1, queued_app, app_assoc.
  - intros Hwf. destruct (Hw1 Hwf) as [Hwf1 Hs1].
    destruct (Hw2 Hwf1) as [Hwf2 Hs2]. split; [done|congruence].
Qed.

Lemma run_inv_listen ty f prio d : run_inv d ((listen ty (User f) prio d).1, []).
Proof.
  split; simpl; [by rewrite app_nil_r|].
  intros Hwf. split; [by apply wf_listen_user|done].
Qed.

Lemma run_inv_listenOnce ty f prio d : run_inv d ((listenOnce ty f prio d).1, []).
Proof.
  split; simpl; [by rewrite app_nil_r|].
  intros Hwf. split; [by apply wf_listenOnce|done].
Qed.

Lemma run_inv_queue msg d : run_inv d (queue msg d, [EvQueue msg]).
Proof. split; simpl; done. Qed.

Lemma run_inv_remove h d : run_inv d (remove h d, []).
Proof.
  split; simpl; [by rewrite queued_remove, app_nil_r|].
  intros Hwf. split; [by apply wf_remove|apply scheduled_remove].
Qed.

Section CallbackInvariants.
Variable nested_dispatch : Msg → Dispatcher → Run.
Hypothesis nested_inv :
  ∀ msg d r, nested_dispatch msg d = Some r → run_inv d r.

Lemma run_prog_inv p d r :
  run_prog nested_dispatch p d = Some r → run_inv d r.
Proof.
  revert d r.
  induction p as [|ty f _ prio k IH|ty f _ prio k IH|msg k IH|msg k IH|h k IH|h k IH];
    cbn [run_prog]; intros d r Hr.
  - simplify_eq. apply run_inv_refl.
  - apply IH in Hr. destruct r as [d2 t2].
    apply (run_inv_seq d (listen ty (User f) prio d).1 [] d2 t2);
      [apply run_inv_listen|done].
  - apply IH in Hr. destruct r as [d2 t2].
    apply (run_inv_seq d (listenOnce ty f prio d).1 [] d2 t2);
      [apply run_inv_listenOnce|done].
  - destruct (nested_dispatch msg d) as [[d1 t1]|] eqn:Hn; [|done].
    destruct (run_prog nested_dispatch k d1) as [[d2 t2]|] eqn:Hk; [|done].
    simplify_eq. eapply run_inv_seq; [by eapply nested_inv|by apply IH].
  - destruct (run_prog nested_dispatch k (queue msg d)) as [[d2 t2]|] eqn:Hk; [|done].
    simplify_eq.
    apply (run_inv_seq d (queue msg d) [EvQueue msg] d2 t2);
      [apply run_inv_queue|by apply IH].
  - apply IH in Hr. destruct r as [d2 t2].
    apply (run_inv_seq d (remove h d) [] d2 t2); [apply run_inv_remove|done].
  - by apply IH in Hr.
Qed.

Lemma call_listener_queue l msg d r :
  call_listener nested_dispatch l msg d = Some r →
  queuedDispatches r.1 = queuedDispatches d ++ queued r.2.
Proof.
  destruct l as [f|listenerId f]; simpl; intros Hr.
  - by apply run_prog_inv in Hr as [? _].
  - destruct (run_prog _ _ _) as [[d2 t]|] eqn:Hb; [|done]. simplify_eq.
    apply run_prog_inv in Hb as [Hq _]. simpl in *.
    by rewrite queued_remove.
Qed.

Lemma call_listener_inv e msg d r :
  wf d → entry_ok e → callable e d →
  call_listener nested_dispatch (callback e) msg d = Some r →
  wf r.1 ∧ listenersScheduledForRemoval r.1 = listenersScheduledForRemoval d.
Proof.
  intros Hwf Hok Hcall. unfold entry_ok, callable in *.
  destruct (callback e) as [f|listenerId f]; simpl; intros Hr.
  - apply run_prog_inv in Hr as [_ Hr]. by apply Hr.
  - destruct (run_prog _ _ _) as [[d2 t]|] eqn:Hb; [|done]. simplify_eq.
    apply run_prog_inv in Hb as [_ Hb]. simpl in *.
    destruct (Hb Hwf) as [Hwf2 Hs2]. split.
    + by apply wf_remove.
    + rewrite scheduled_remove; simpl. rewrite Hs2. subst.
      apply set_eq. intros x.
      rewrite elem_of_difference, elem_of_union, elem_of_singleton.
      split; [tauto|]. intros Hx. split; [tauto|]. by intros ->.
Qed.

Lemma dispatch_loop_queue listenersCopy msg d r :
  dispatch_loop nested_dispatch listenersCopy msg d = Some r →
  queuedDispatches r.1 = queuedDispatches d ++ queued r.2.
Proof.
  revert d r. induction listenersCopy as [|e rest IH]; simpl; intros d r Hr.
  - simplify_eq. simpl. by rewrite app_nil_r.
  - case_decide; [by apply IH|].
    destruct (call_listener _ _ _ _) as [[d1 t1]|] eqn:Hc; [|done].
    destruct (dispatch_loop _ _ _ _) as [[d2 t2]|] eqn:Hl; [|done].
    simplify_eq. apply call_listener_queue in Hc. apply IH in Hl.
    simpl in *. unfold queued in *. simpl. by rewrite Hl, Hc, app_assoc.
Qed.

(** The pass invokes, in order, exactly the entries of its copy whose handle
    is not scheduled for removal. *)
Lemma dispatch_loop_inv listenersCopy msg d r :
  wf d → Forall entry_ok listenersCopy →
  dispatch_loop nested_dispatch listenersCopy msg d = Some r →
  wf r.1
  ∧ listenersScheduledForRemoval r.1 = listenersScheduledForRemoval d
  ∧ invoked r.2 = filter (λ e, callable e d) listenersCopy.
Proof.
  revert d r. induction listenersCopy as [|e rest IH]; simpl; intros d r Hwf Hok Hr.
  - by simplify_eq.
  - apply Forall_cons in Hok as [Hok Hoks]. rewrite filter_cons.
    destruct (decide (handle e ∈ listenersScheduledForRemoval d)) as [Hin|Hin].
    + rewrite decide_False by (unfold callable; tauto). by apply IH.
    + rewrite decide_True by done.
      destruct (call_listener _ _ _ _) as [[d1 t1]|] eqn:Hc; [|done].
      destruct (dispatch_loop _ _ _ _) as [[d2 t2]|] eqn:Hl; [|done].
      simplify_eq. apply call_listener_inv in Hc as [Hwf1 Hs1]; [|done..].
      apply IH in Hl as (Hwf2 & Hs2 & Hf); [|done..]. simpl in *.
      split_and!; [done|congruence|]. rewrite Hf. f_equal.
      unfold callable. by rewrite Hs1.
Qed.

Lemma dispatch_body_inv msg d r :
  dispatch_body nested_dispatch msg d = Some r → run_inv d r.
Proof.
  unfold dispatch_body. intros Hr.
  destruct (listenersByType d !! mtype msg) as [vec|] eqn:Hb.
  - split; [by eapply dispatch_loop_queue|]. intros Hwf.
    eapply dispatch_loop_inv in Hr as (? & ? & _); [done|done|].
    by apply (Hwf _ _ Hb).
  - simplify_eq. apply run_inv_refl.
Qed.
End CallbackInvariants.

Lemma dispatch_inv depth msg d r : dispatch depth msg d = Some r → run_inv d r.
Proof.
  revert msg d r. induction depth as [|depth IH]; simpl; intros msg d r Hr; [done|].
  by eapply dispatch_body_inv.
Qed.

Lemma dispatch_unfold depth msg d :
  dispatch (S depth) msg d = dispatch_body (dispatch depth) msg d.
Proof. done. Qed.

(** The handles invoked by one [dispatch], from a well-formed dispatcher. *)
Lemma dispatch_invoked depth msg d d' t vec :
  wf d → listenersByType d !! mtype msg = Some vec →
  dispatch depth msg d = Some (d', t) →
  invoked t = filter (λ e, callable e d) vec.
Proof.
  intros Hwf Hb Hr. destruct depth as [|depth]; [done|].
  rewrite dispatch_unfold in Hr. unfold dispatch_body in Hr. rewrite Hb in Hr.
  eapply dispatch_loop_inv in Hr as (_ & _ & Hf); [done| |done|].
  - intros ???. by eapply dispatch_inv.
  - by apply (Hwf _ _ Hb).
Qed.

(** ** The bounds only cut runs short *)

Section Monotone.
Variables nested1 nested2 : Msg → Dispatcher → Run.
Hypothesis nested_le : ∀ msg d r, nested1 msg d = Some r → nested2 msg d = Some r.

Lemma run_prog_mono p d r :
  run_prog nested1 p d = Some r → run_prog nested2 p d = Some r.
Proof.
  revert d r.
  induction p as [|ty f _ prio k IH|ty f _ prio k IH|msg k IH|msg k IH|h k IH|h k IH];
    cbn [run_prog]; intros d r Hr; try (by apply IH); [done| |].
  - destruct (nested1 msg d) as [[d1 t1]|] eqn:Hn; [|done].
    rewrite (nested_le _ _ _ Hn).
    destruct (run_prog nested1 k d1) as [[d2 t2]|] eqn:Hk; [|done].
    by rewrite (IH _ _ Hk).
  - destruct (run_prog nested1 k (queue msg d)) as [[d2 t2]|] eqn:Hk; [|done].
    by rewrite (IH _ _ Hk).
Qed.

Lemma call_listener_mono l msg d r :
  call_listener nested1 l msg d = Some r → call_listener nested2 l msg d = Some r.
Proof.
  destruct l as [f|listenerId f]; cbn [call_listener]; [apply run_prog_mono|].
  destruct (run_prog nested1 _ _) as [[d2 t]|] eqn:Hb; [|done].
  by rewrite (run_prog_mono _ _ _ Hb).
Qed.

Lemma dispatch_loop_mono listenersCopy msg d r :
  dispatch_loop nested1 listenersCopy msg d = Some r →
  dispatch_loop nested2 listenersCopy msg d = Some r.
Proof.
  revert d r. induction listenersCopy as [|e rest IH]; cbn [dispatch_loop];
    intros d r Hr; [done|].
  case_decide; [by apply IH|].
  destruct (call_listener nested1 _ _ _) as [[d1 t1]|] eqn:Hc; [|done].
  rewrite (call_listener_mono _ _ _ _ Hc).
  destruct (dispatch_loop nested1 _ _ _) as [[d2 t2]|] eqn:Hl; [|done].
  by rewrite (IH _ _ Hl).
Qed.

Lemma dispatch_body_mono msg d r :
  dispatch_body nested1 msg d = Some r → dispatch_body nested2 msg d = Some r.
Proof.
  unfold dispatch_body. destruct (listenersByType d !! mtype msg); [|done].
  apply dispatch_loop_mono.
Qed.
End Monotone.

Lemma dispatch_S depth msg d r :
  dispatch depth msg d = Some r → dispatch (S depth) msg d = Some r.
Proof.
  revert msg d r. induction depth as [|depth IH]; intros msg d r Hr; [done|].
  rewrite dispatch_unfold in *. by eapply dispatch_body_mono.
Qed.

(** A run that returns within [depth] returns the same with any larger bound. *)
Lemma dispatch_mono depth depth' msg d r :
  depth ≤ depth' → dispatch depth msg d = Some r → dispatch depth' msg d = Some r.
Proof. induction 1; [done|]. intros Hr. by apply dispatch_S, IHle. Qed.

Lemma process_loop_mono steps steps' depth depth' it d r :
  steps ≤ steps' → depth ≤ depth' →
  process_loop steps depth it d = Some r →
  process_loop steps' depth' it d = Some r.
Proof.
  intros Hs Hd. revert steps' Hs it d r.
  induction steps as [|steps IH]; intros steps' Hs it d r Hr; [done|].
  destruct steps' as [|steps']; [lia|]. cbn [process_loop] in *.
  destruct (queuedDispatches d !! it) as [msg|]; [|done].
  destruct (dispatch depth msg d) as [[d1 t1]|] eqn:Hm; [|done].
  rewrite (dispatch_mono _ _ _ _ _ Hd Hm).
  destruct (process_loop steps depth (S it) d1) as [[d2 t2]|] eqn:Hl; [|done].
  rewrite (IH steps' ltac:(lia) _ _ _ Hl). done.
Qed.

Lemma process_mono steps steps' depth depth' d r :
  steps ≤ steps' → depth ≤ depth' →
  process steps depth d = Some r → process steps' depth' d = Some r.
Proof.
  intros Hs Hd. unfold process.
  destruct (process_loop steps depth 0 d) as [[d1 t]|] eqn:Hl; [|done].
  by rewrite (process_loop_mono _ _ _ _ _ _ _ Hs Hd Hl).
Qed.

(** ** The drain loop of [process] *)

Lemma process_loop_inv steps depth it d d' t :
  process_loop steps depth it d = Some (d', t) →
  queuedDispatches d' = queuedDispatches d ++ queued t
  ∧ drained t = drop it (queuedDispatches d')
  ∧ (wf d →
       wf d' ∧ listenersScheduledForRemoval d' = listenersScheduledForRemoval d).
Proof.
  revert it d d' t. induction steps as [|steps IH]; simpl; intros it d d' t Hr; [done|].
  destruct (queuedDispatches d !! it) as [msg|] eqn:Hit.
  - destruct (dispatch depth msg d) as [[d1 t1]|] eqn:Hd; [|done].
    destruct (process_loop steps depth (S it) d1) as [[d2 t2]|] eqn:Hl; [|done].
    simplify_eq. apply dispatch_inv in Hd as [Hq1 Hw1]. simpl in *.
    apply IH in Hl as (Hq2 & Hdr & Hw2).
    assert (queuedDispatches d' = queuedDispatches d ++ queued t1 ++ queued t2) as Hq.
    { by rewrite Hq2, Hq1, app_assoc. }
    split_and!.
    + done.
    + rewrite Hdr. symmetry. apply drop_S.
      rewrite Hq. by apply lookup_app_l_Some.
    + intros Hwf. destruct (Hw1 Hwf) as [Hwf1 Hs1].
      destruct (Hw2 Hwf1) as [Hwf2 Hs2]. split; [done|congruence].
  - simplify_eq. simpl. rewrite app_nil_r. split_and!; [done| |done].
    symmetry. apply drop_ge. by apply lookup_ge_None.
Qed.

Lemma process_inv steps depth d d' t :
  process steps depth d = Some (d', t) →
  queuedDispatches d' = []
  ∧ drained t = queuedDispatches d ++ queued t
  ∧ (wf d →
       wf d' ∧ listenersScheduledForRemoval d' = listenersScheduledForRemoval d).
Proof.
  unfold process. intros Hr.
  destruct (process_loop steps depth 0 d) as [[d1 t1]|] eqn:Hl; [|done].
  simplify_eq. apply process_loop_inv in Hl as (Hq & Hdr & Hw). simpl.
  split_and!; [done| |done]. by rewrite Hdr, drop_0.
Qed.

Lemma queue_all (msgs : list Msg) (d : Dispatcher) :
  queuedDispatches (foldl (λ d' m, queue m d') d msgs) = queuedDispatches d ++ msgs
  ∧ listenersByType (foldl (λ d' m, queue m d') d msgs) = listenersByType d
  ∧ listenersScheduledForRemoval (foldl (λ d' m, queue m d') d msgs)
    = listenersScheduledForRemoval d.
Proof.
  revert d. induction msgs as [|m msgs IH]; intros d; simpl.
  - by rewrite app_nil_r.
  - destruct (IH (queue m d)) as (Hq & Hl & Hs). rewrite Hq, Hl, Hs.
    simpl. by rewrite <- app_assoc.
Qed.

(** ** Calm callbacks always return *)

Lemma calm_registry_addListener ty l prio d :
  calm_registry d → calm_listener l → calm_registry (addListener ty l prio d).1.
Proof.
  intros Hc Hl. unfold calm_registry, addListener; simpl.
  apply map_Forall_insert_2; [|done]. unfold vector_insert.
  assert (Forall (λ e, calm_listener (callback e))
            (default [] (listenersByType d !! ty))) as Hb.
  { destruct (listenersByType d !! ty) as [vec|] eqn:Hb; simpl; [|constructor].
    by apply (Hc ty). }
  apply Forall_app; split; [by apply Forall_take|].
  constructor; [done|by apply Forall_drop].
Qed.

Lemma calm_registry_new : calm_registry newDispatcher.
Proof. unfold calm_registry, newDispatcher; simpl. apply map_Forall_empty. Qed.

Lemma calm_registry_remove h d : calm_registry d → calm_registry (remove h d).
Proof.
  intros Hc. unfold remove. case_decide; [done|].
  unfold calm_registry; simpl. apply map_Forall_fmap.
  eapply map_Forall_impl; [exact Hc|]. simpl. intros ty vec Hall.
  apply Forall_forall. intros e He. apply list_elem_of_filter in He as [_ He].
  by eapply (proj1 (Forall_forall _ _) Hall).
Qed.

Section CalmCallbacks.
Variable nested_dispatch : Msg → Dispatcher → Run.

Lemma calm_run_prog p d :
  calm p → calm_registry d →
  ∃ d', run_prog nested_dispatch p d = Some (d', [])
        ∧ calm_registry d' ∧ queuedDispatches d' = queuedDispatches d.
Proof.
  revert d.
  induction p as [|ty f _ prio k IH|ty f _ prio k IH|msg k IH|msg k IH|h k IH|h k IH];
    intros d Hp Hc; inversion Hp; subst; cbn [run_prog].
  - by exists d.
  - destruct (IH (listen ty (User f) prio d).2 (listen ty (User f) prio d).1)
      as (d' & Hr & ? & ?); [done|by apply calm_registry_addListener|].
    by exists d'.
  - destruct (IH (listenOnce ty f prio d).2 (listenOnce ty f prio d).1)
      as (d' & Hr & ? & ?); [done|by apply calm_registry_addListener|].
    by exists d'.
  - destruct (IH (remove h d)) as (d' & Hr & ? & Hq);
      [done|by apply calm_registry_remove|].
    exists d'. by rewrite Hq, queued_remove.
  - by apply IH.
Qed.

Lemma calm_call_listener l msg d :
  calm_listener l → calm_registry d →
  ∃ d', call_listener nested_dispatch l msg d = Some (d', [])
        ∧ calm_registry d' ∧ queuedDispatches d' = queuedDispatches d.
Proof.
  intros Hl Hc. destruct l as [f|listenerId f]; simpl in *.
  - by apply calm_run_prog.
  - edestruct (calm_run_prog (f msg)) as (d' & -> & Hc' & Hq); [apply Hl| |].
    { exact Hc. }
    eexists; split_and!; [done| |].
    + by apply calm_registry_remove.
    + by rewrite queued_remove.
Qed.

Lemma calm_dispatch_loop listenersCopy msg d :
  Forall (λ e, calm_listener (callback e)) listenersCopy → calm_registry d →
  calm_run d (dispatch_loop nested_dispatch listenersCopy msg d).
Proof.
  intros Hall. revert d. induction Hall as [|e rest He _ IH]; intros d Hc; simpl.
  - by exists d, [].
  - case_decide; [by apply IH|].
    destruct (calm_call_listener (callback e) msg d He Hc) as (d1 & -> & Hc1 & Hq1).
    destruct (IH d1 Hc1) as (d2 & t2 & -> & Hc2 & Ht2 & Hq2).
    exists d2, (EvFire e msg [] :: t2). split_and!; [done..|congruence].
Qed.

Lemma calm_dispatch_body msg d :
  calm_registry d → calm_run d (dispatch_body nested_dispatch msg d).
Proof.
  intros Hc. unfold dispatch_body.
  destruct (listenersByType d !! mtype msg) as [vec|] eqn:Hb.
  - apply calm_dispatch_loop; [|done]. by apply (Hc _ _ Hb).
  - by exists d, [].
Qed.
End CalmCallbacks.

Lemma calm_dispatch depth msg d :
  calm_registry d → calm_run d (dispatch (S depth) msg d).
Proof. apply calm_dispatch_body. Qed.

Lemma calm_process_loop steps depth it d :
  calm_registry d → length (queuedDispatches d) - it < steps →
  calm_run d (process_loop steps (S depth) it d).
Proof.
  revert it d. induction steps as [|steps IH]; intros it d Hc Hlen; [lia|].
  cbn [process_loop]. destruct (queuedDispatches d !! it) as [msg|] eqn:Hit.
  - destruct (calm_dispatch depth msg d Hc) as (d1 & t1 & -> & Hc1 & Ht1 & Hq1).
    destruct (IH (S it) d1 Hc1) as (d2 & t2 & -> & Hc2 & Ht2 & Hq2).
    { rewrite Hq1. apply lookup_lt_Some in Hit. lia. }
    exists d2, (EvDrain msg t1 :: t2). split_and!; [done|done| |congruence].
    unfold queued in *. simpl. by rewrite Ht1, Ht2.
  - by exists d, [].
Qed.

Lemma calm_process depth d :
  calm_registry d →
  ∃ d' t, process (S (length (queuedDispatches d))) (S depth) d = Some (d', t)
          ∧ calm_registry d' ∧ queued t = [].
Proof.
  intros Hc. unfold process.
  destruct (calm_process_loop (S (length (queuedDispatches d))) depth 0 d Hc)
    as (d1 & t & -> & Hc1 & Ht & _); [lia|].
  by exists (set_queuedDispatches [] d1), t.
Qed.

(** ** Buckets, handles and removal *)

Lemma listen_bucket ty l prio d :
  wf d →
  ∃ before after,
    default [] (listenersByType d !! ty) = before ++ after
    ∧ listenersByType (listen ty l prio d).1 !! ty
      = Some (before ++ mkEntry (nextListenerId d) prio l :: after)
    ∧ Forall (λ e, (prio ≤ priority e)%Z) before
    ∧ Forall (λ e, (priority e < prio)%Z) after.
Proof.
  intros Hwf. set (vec := default [] (listenersByType d !! ty)).
  set (it := find_if (λ e, bool_decide (priority e < prio)%Z) vec).
  exists (take it vec), (drop it vec).
  assert (descending vec) as Hs.
  { unfold vec. destruct (listenersByType d !! ty) as [v|] eqn:Hb; simpl.
    - by apply (Hwf _ _ Hb).
    - constructor. }
  destruct (insert_position prio vec Hs).
  split_and!; [by rewrite take_drop| |done|done].
  unfold listen, addListener; simpl. by rewrite lookup_insert_eq.
Qed.

(** In a bucket ordered by descending priority, an entry of strictly higher
    priority stands before one of lower priority. *)
Lemma descending_precedes vec e1 e2 :
  descending vec → e1 ∈ vec → e2 ∈ vec → (priority e2 < priority e1)%Z →
  ∃ a b c, vec = a ++ e1 :: b ++ e2 :: c.
Proof.
  intros Hs H1 H2 Hlt.
  apply list_elem_of_split in H1 as (a & r & ->).
  apply elem_of_app in H2 as [H2|H2].
  - apply StronglySorted_app in Hs as (Hcross & _ & _).
    specialize (Hcross e2 e1 H2 (list_elem_of_here _ _)). lia.
  - apply elem_of_cons in H2 as [->|H2]; [lia|].
    apply list_elem_of_split in H2 as (b & c & ->). by exists a, b, c.
Qed.

Lemma filter_callable_all d (vec : list ListenerEntry) :
  listenersScheduledForRemoval d = ∅ → filter (λ e, callable e d) vec = vec.
Proof.
  intros He. induction vec as [|e vec IH]; [done|].
  rewrite filter_cons, decide_True, IH; [done|].
  unfold callable. rewrite He. apply not_elem_of_empty.
Qed.

Section FiredBySnapshot.
Variable nested_dispatch : Msg → Dispatcher → Run.

End FiredBySnapshot.


Lemma registered_lookup h d :
  registered h d ↔
  ∃ ty vec e, listenersByType d !! ty = Some vec ∧ e ∈ vec ∧ handle e = h.
Proof.
  unfold registered. rewrite map_Exists_lookup. split.
  - intros (ty & vec & Hb & Hex). apply Exists_exists in Hex as (e & ? & ?).
    by exists ty, vec, e.
  - intros (ty & vec & e & Hb & He & Hh). exists ty, vec. split; [done|].
    apply Exists_exists. by exists e.
Qed.

Lemma not_registered_bucket h d ty vec :
  ¬ registered h d → listenersByType d !! ty = Some vec →
  ¬ Exists (λ e, handle e = h) vec.
Proof.
  intros Hn Hb Hex. apply Hn. apply map_Exists_lookup. by exists ty, vec.
Qed.

Lemma remove_unregisters h d :
  h ∉ listenersScheduledForRemoval d → ¬ registered h (remove h d).
Proof.
  intros Hs. unfold remove. rewrite decide_False by done.
  rewrite registered_lookup; simpl. intros (ty & vec & e & Hb & He & Hh).
  rewrite lookup_fmap in Hb. destruct (listenersByType d !! ty) as [v|]; [|done].
  simpl in Hb. simplify_eq. by apply list_elem_of_filter in He as [? _].
Qed.

Lemma remove_unknown h d : ¬ registered h d → remove h d = d.
Proof.
  intros Hn. unfold remove. case_decide; [done|].
  destruct d as [m q s n]; unfold set_listenersByType; simpl in *. f_equal.
  apply map_eq. intros ty. rewrite lookup_fmap.
  destruct (m !! ty) as [vec|] eqn:Hb; simpl; [|done].
  f_equal. apply erase_handle_id. by eapply (not_registered_bucket h _ ty vec Hn).
Qed.

Lemma remove_scheduled h d : h ∈ listenersScheduledForRemoval d → remove h d = d.
Proof. intros Hin. unfold remove. by rewrite decide_True. Qed.

Lemma remove_idempotent h d : remove h (remove h d) = remove h d.
Proof.
  destruct (decide (h ∈ listenersScheduledForRemoval d)) as [Hin|Hin].
  - rewrite (remove_scheduled h d Hin). by apply remove_scheduled.
  - apply remove_unknown. by apply remove_unregisters.
Qed.

Lemma hasListener_unknown h d : ¬ registered h d → hasListener h d = false.
Proof.
  intros Hn. unfold hasListener. case_decide; [done|]. by apply bool_decide_eq_false.
Qed.

Lemma hasListener_remove h d : hasListener h (remove h d) = false.
Proof.
  destruct (decide (h ∈ listenersScheduledForRemoval d)) as [Hin|Hin].
  - rewrite remove_scheduled by done. unfold hasListener. by rewrite decide_True.
  - apply hasListener_unknown. by apply remove_unregisters.
Qed.




(** ** Invocation order *)

(** C1.  Subscribe a listener with priority [prio] to the type of [msg] on a
    well-formed dispatcher at rest.  The new entry is put after every entry
    of priority at least [prio] (so after the earlier listeners of equal
    priority) and before every entry of lower priority, and the entries
    already there keep their relative order.  A [dispatch] of [msg] then
    invokes the bucket from front to back, so in descending priority: any
    entry of strictly higher priority is invoked before any entry of lower
    priority.  With calm callbacks the dispatch returns. *)
Theorem C1_dispatch_priority_order
    (msg : Msg) (l : Listener) (prio : Z) (d : Dispatcher) :
  wf d → fits l d → listenersScheduledForRemoval d = ∅ →
  ∃ before after,
    default [] (listenersByType d !! mtype msg) = before ++ after
    ∧ Forall (λ e, (prio ≤ priority e)%Z) before
    ∧ Forall (λ e, (priority e < prio)%Z) after
    ∧ listenersByType (listen (mtype msg) l prio d).1 !! mtype msg
      = Some (before ++ mkEntry (listen (mtype msg) l prio d).2 prio l :: after)
    ∧ (∀ depth d' t,
         dispatch depth msg (listen (mtype msg) l prio d).1 = Some (d', t) →
         invoked t
         = before ++ mkEntry (listen (mtype msg) l prio d).2 prio l :: after
         ∧ descending (invoked t)
         ∧ ∀ e1 e2,
             e1 ∈ invoked t → e2 ∈ invoked t → (priority e2 < priority e1)%Z →
             ∃ a b c, invoked t = a ++ e1 :: b ++ e2 :: c)
    ∧ (calm_registry d → calm_listener l →
       ∀ depth, is_Some (dispatch (S depth) msg (listen (mtype msg) l prio d).1)).
Proof.
  intros Hwf Hfit Hrest.
  destruct (listen_bucket (mtype msg) l prio d Hwf) as (before & after & Hvec & Hb & Hge & Hlt).
  assert (wf (listen (mtype msg) l prio d).1) as Hwf1 by by apply wf_addListener.
  exists before, after. split_and!; [done..| |].
  - intros depth d' t Hr.
    pose proof (dispatch_invoked _ _ _ _ _ _ Hwf1 Hb Hr) as Hf.
    rewrite filter_callable_all in Hf by done.
    pose proof (proj1 (Hwf1 _ _ Hb)) as Hs. rewrite <- Hf in Hs.
    split_and!; [done..|].
    intros e1 e2 H1 H2 Hp. by apply descending_precedes.
  - intros Hc Hl depth.
    destruct (calm_dispatch depth msg (listen (mtype msg) l prio d).1)
      as (d' & t & -> & _); [|done].
    by apply calm_registry_addListener.
Qed.

Lemma C1_dispatch_priority_order_witness :
  fired (result_of
           (dispatch 1 ping (listen Ping (User silent) 5 two_listeners).1)).2
  = [0; 1]%Z
  ∧ is_Some (dispatch 1 ping (listen Ping (User silent) 5 two_listeners).1)
  ∧ descending
      (invoked (result_of
                  (dispatch 1 ping (listen Ping (User silent) 5 two_listeners).1)).2).
Proof.
  destruct (C1_dispatch_priority_order ping (User silent) 5 two_listeners)
    as (before & after & _ & _ & _ & _ & Hrun & Hreturns).
  - apply wf_listen_user, wf_new.
  - exact I.
  - reflexivity.
  - split_and!.
    + vm_compute; reflexivity.
    + apply Hreturns; [|exact (λ m, calm_return)].
      apply calm_registry_addListener; [apply calm_registry_new|].
      exact (λ m, calm_return).
    + refine (proj1 (proj2 (Hrun 1
        (result_of (dispatch 1 ping (listen Ping (User silent) 5 two_listeners).1)).1
        _ _))).
      vm_compute; reflexivity.
Defined.

(** ** Snapshot semantics *)



(** ** Deferred dispatch *)



(** C5.  After [queue] has been called on [msgs] in order, a [process()]
    call that returns has dispatched what the deferred list held before,
    then [msgs] in the order they were queued, whatever their types, then
    what was queued during the call.  When the callbacks are calm the call
    returns and dispatches exactly the deferred list. *)
Theorem C5_process_fifo (msgs : list Msg) (d : Dispatcher) :
  (∀ steps depth d' t,
     process steps depth (queue_each msgs d) = Some (d', t) →
     drained t = queuedDispatches d ++ msgs ++ queued t)
  ∧ (calm_registry d →
     ∀ depth, ∃ d' t,
       process (S (length (queuedDispatches d ++ msgs))) (S depth)
         (queue_each msgs d) = Some (d', t)
       ∧ drained t = queuedDispatches d ++ msgs).
Proof.
  destruct (queue_all msgs d) as (Hq & Hl & Hs). fold (queue_each msgs d) in *.
  split.
  - intros steps depth d' t Hr. apply process_inv in Hr as (_ & Hdr & _).
    by rewrite Hdr, Hq, app_assoc.
  - intros Hc depth.
    assert (calm_registry (queue_each msgs d)) as Hc'.
    { unfold calm_registry. by rewrite Hl. }
    destruct (calm_process depth _ Hc') as (d' & t & Hr & _ & Ht).
    rewrite Hq in Hr. exists d', t. split; [done|].
    apply process_inv in Hr as (_ & Hdr & _). by rewrite Hdr, Ht, Hq, app_nil_r.
Qed.

Lemma C5_process_fifo_witness :
  ∃ d' t,
    process 4 1 (queue_each [ping; pong; ping] two_listeners) = Some (d', t)
    ∧ drained t = [ping; pong; ping].
Proof.
  destruct (C5_process_fifo [ping; pong; ping] two_listeners) as [_ Hcalm].
  apply (Hcalm (calm_registry_addListener Ping (User silent) 10 newDispatcher
                  calm_registry_new (λ m, calm_return)) 0).
Defined.

(** ** Calls that find nothing to do *)

(** C6.  [dispatch] of a type with no subscriber (no bucket, or an empty
    one) returns and leaves the dispatcher as it was; [remove] of a handle
    that no bucket holds leaves the dispatcher as it was, so a second
    [remove] of the same handle changes nothing; [hasListener] of a handle
    that no bucket holds answers [false]. *)
Theorem C6_silent_no_ops (d : Dispatcher) :
  (∀ depth msg,
     default [] (listenersByType d !! mtype msg) = [] →
     dispatch (S depth) msg d = Some (d, []))
  ∧ (∀ h, ¬ registered h d → remove h d = d)
  ∧ (∀ h, remove h (remove h d) = remove h d)
  ∧ (∀ h, ¬ registered h d → hasListener h d = false).
Proof.
  split_and!.
  - intros depth msg Hb. rewrite dispatch_unfold. unfold dispatch_body.
    destruct (listenersByType d !! mtype msg) as [vec|]; simpl in *; by subst.
  - intros h. apply remove_unknown.
  - intros h. apply remove_idempotent.
  - intros h. apply hasListener_unknown.
Qed.

Lemma C6_silent_no_ops_witness :
  dispatch 1 pong two_listeners = Some (two_listeners, [])
  ∧ remove 5 two_listeners = two_listeners
  ∧ remove 0 (remove 0 two_listeners) = remove 0 two_listeners
  ∧ hasListener 5 two_listeners = false.
Proof.
  destruct (C6_silent_no_ops two_listeners) as (Hd & Hr & Hrr & Hh).
  split_and!.
  - apply (Hd 0 pong). reflexivity.
  - apply Hr. by_compute.
  - apply Hrr.
  - apply Hh. by_compute.
Defined.

(** ** Tokens *)

Lemma Token_destroy_owning tok heap d :
  holdsResource tok = true → heap !! dispatcher tok = Some d →
  Token_destroy tok heap !! dispatcher tok = Some (remove (_handle tok) d).
Proof.
  intros Ho Hd. unfold Token_destroy. rewrite Ho.
  by rewrite lookup_alter_eq, Hd.
Qed.

(** C7.  Destroying a token that owns its handle calls [remove] on its
    dispatcher, after which [hasListener] of the handle is false.  Moving a
    token hands the handle and the ownership to the new token; the token
    moved from owns nothing and destroying it leaves every dispatcher as it
    was. *)
Theorem C7_token_release (tok : Token) (heap : Heap) (d : Dispatcher) :
  holdsResource tok = true → heap !! dispatcher tok = Some d →
  Token_destroy tok heap !! dispatcher tok = Some (remove (Token_handle tok) d)
  ∧ hasListener (Token_handle tok) (remove (Token_handle tok) d) = false
  ∧ (Token_move tok).1 = tok
  ∧ holdsResource (Token_move tok).2 = false
  ∧ Token_handle (Token_move tok).2 = Token_handle tok
  ∧ Token_destroy (Token_move tok).2 heap = heap
  ∧ Token_destroy (Token_move tok).1 heap !! dispatcher tok
    = Some (remove (Token_handle tok) d).
Proof.
  intros Ho Hd. split_and!.
  - by apply Token_destroy_owning.
  - apply hasListener_remove.
  - by destruct tok.
  - done.
  - done.
  - done.
  - by apply (Token_destroy_owning (Token_move tok).1).
Qed.

Lemma C7_token_release_witness :
  hasListener 0 two_listeners = true
  ∧ Token_destroy (Token_new 4 0) {[4 := two_listeners]} !! 4
    = Some (remove 0 two_listeners)
  ∧ hasListener 0 (remove 0 two_listeners) = false
  ∧ Token_destroy (Token_move (Token_new 4 0)).2 {[4 := two_listeners]}
    = {[4 := two_listeners]}.
Proof.
  destruct (C7_token_release (Token_new 4 0) {[4 := two_listeners]} two_listeners)
    as (H1 & H2 & _ & _ & _ & H6 & _); [reflexivity|reflexivity|].
  split_and!; [by vm_compute|exact H1|exact H2|exact H6].
Defined.

(** C9.  [Token::remove()] calls [Dispatcher::remove] on the stored handle
    whatever the ownership flag says.  On a token that owns nothing the call
    still removes the listener; in particular, on the token a move left
    behind it removes the listener whose handle the move target now owns,
    and the target still believes it owns it. *)
Theorem C9_token_remove_ignores_ownership (tok : Token) (heap : Heap) (d : Dispatcher) :
  heap !! dispatcher tok = Some d →
  (Token_remove tok heap).2 !! dispatcher tok = Some (remove (Token_handle tok) d)
  ∧ holdsResource (Token_remove tok heap).1 = false
  ∧ (Token_remove (Token_move tok).2 heap).2 !! dispatcher tok
    = Some (remove (Token_handle (Token_move tok).1) d)
  ∧ holdsResource (Token_move tok).1 = holdsResource tok
  ∧ hasListener (Token_handle (Token_move tok).1)
      (remove (Token_handle (Token_move tok).1) d) = false.
Proof.
  intros Hd. unfold Token_remove, Token_move, Token_handle; simpl.
  split_and!; [|done| |done|apply hasListener_remove];
    by rewrite lookup_alter_eq, Hd.
Qed.

Lemma C9_token_remove_ignores_ownership_witness :
  holdsResource (Token_move (Token_new 4 0)).2 = false
  ∧ holdsResource (Token_move (Token_new 4 0)).1 = true
  ∧ hasListener 0 two_listeners = true
  ∧ (Token_remove (Token_move (Token_new 4 0)).2 {[4 := two_listeners]}).2 !! 4
    = Some (remove 0 two_listeners)
  ∧ hasListener 0 (remove 0 two_listeners) = false.
Proof.
  destruct (C9_token_remove_ignores_ownership (Token_new 4 0)
              {[4 := two_listeners]} two_listeners)
    as (_ & _ & H3 & H4 & H5); [reflexivity|].
  split_and!; [reflexivity|exact H4|by vm_compute|exact H3|exact H5].
Defined.

(** ** Handles *)

Lemma uint64_succ_range n : (0 ≤ uint64_succ n < uint64_modulus)%Z.
Proof. unfold uint64_succ, uint64_modulus. apply Z.mod_pos_bound. lia. Qed.

Lemma uint64_succ_small n :
  (0 ≤ n)%Z → (n + 1 < uint64_modulus)%Z → uint64_succ n = (n + 1)%Z.
Proof. intros. unfold uint64_succ. apply Z.mod_small. lia. Qed.

Lemma seqZ_increasing m n : StronglySorted Z.lt (seqZ m n).
Proof.
  destruct (decide (n ≤ 0)%Z) as [Hn|Hn]; [rewrite seqZ_nil by done; constructor|].
  rewrite <- (Z2Nat.id n) by lia. generalize (Z.to_nat n) as k. clear n Hn.
  intros k. revert m. induction k as [|k IH]; intros m.
  - rewrite seqZ_nil by lia. constructor.
  - rewrite seqZ_cons by lia.
    replace (Z.pred (Z.of_nat (S k))) with (Z.of_nat k) by lia.
    constructor; [apply IH|]. apply Forall_seqZ. lia.
Qed.

Lemma nextListenerId_remove h d : nextListenerId (remove h d) = nextListenerId d.
Proof. unfold remove. by case_decide. Qed.

(** As long as the counter does not wrap, the handles are consecutive. *)
Lemma run_setup_handles script d :
  valid_counter d →
  (nextListenerId d + Z.of_nat (subscriptions script) ≤ uint64_modulus)%Z →
  (run_setup script d).2
  = seqZ (nextListenerId d) (Z.of_nat (subscriptions script)).
Proof.
  unfold valid_counter. revert d.
  induction script as [|call script IH]; intros d Hc Hn; [done|].
  assert (∀ ty l prio,
            (nextListenerId d + Z.of_nat (S (subscriptions script))
               ≤ uint64_modulus)%Z →
            (run_setup script (addListener ty l prio d).1).2
            = seqZ (Z.succ (nextListenerId d)) (Z.of_nat (subscriptions script)))
    as Hstep.
  { intros ty l prio Hle.
    destruct (decide (subscriptions script = 0)) as [Hz|Hz].
    - rewrite IH; simpl.
      + rewrite Hz. by rewrite !seqZ_nil by lia.
      + apply uint64_succ_range.
      + rewrite Hz. pose proof (uint64_succ_range (nextListenerId d)). lia.
    - rewrite IH; simpl.
      + rewrite uint64_succ_small by lia. f_equal.
      + apply uint64_succ_range.
      + rewrite uint64_succ_small by lia. lia. }
  destruct call as [ty f prio|ty f prio|h]; cbn [run_setup subscriptions] in *.
  - unfold listen. cbn [snd]. rewrite (Hstep ty (User f) prio Hn).
    rewrite (seqZ_cons _ (Z.of_nat (S _))) by lia.
    change (addListener ty (User f) prio d).2 with (nextListenerId d).
    do 2 f_equal. lia.
  - unfold listenOnce, listen. cbn [snd].
    rewrite (Hstep ty (OnceWrapper (nextListenerId d) f) prio Hn).
    rewrite (seqZ_cons _ (Z.of_nat (S _))) by lia.
    change (addListener ty (OnceWrapper (nextListenerId d) f) prio d).2
      with (nextListenerId d).
    do 2 f_equal. lia.
  - rewrite IH; rewrite nextListenerId_remove; done.
Qed.

(** C8, as stated, fails when the counter wraps: from the counter value
    [2^64 - 1] two subscriptions return [2^64 - 1] and then [0]. *)
Lemma C8_handles_wrap_counterexample :
  valid_counter last_handle
  ∧ (run_setup [DoListen Ping silent 0; DoListenOnce Pong silent 0] last_handle).2
    = [18446744073709551615; 0]%Z
  ∧ ¬ StronglySorted Z.lt
        (run_setup [DoListen Ping silent 0; DoListenOnce Pong silent 0]
           last_handle).2.
Proof.
  split_and!.
  - unfold valid_counter, last_handle, uint64_modulus; simpl. lia.
  - vm_compute; reflexivity.
  - replace (run_setup _ _).2 with [18446744073709551615; 0]%Z
      by (vm_compute; reflexivity).
    intros Hs. apply StronglySorted_inv in Hs as [_ Hall].
    apply Forall_cons in Hall as [Hlt _]. lia.
Qed.

(** The wrap is reached from a fresh dispatcher: after [2^64] subscriptions
    the next handle is [0] again. *)
Lemma run_setup_app s1 s2 d :
  run_setup (s1 ++ s2) d
  = ((run_setup s2 (run_setup s1 d).1).1,
     (run_setup s1 d).2 ++ (run_setup s2 (run_setup s1 d).1).2).
Proof.
  revert d. induction s1 as [|call s1 IH]; intros d.
  - simpl. by destruct (run_setup s2 d).
  - destruct call; cbn [app run_setup]; rewrite IH; done.
Qed.

Lemma run_setup_counter script d :
  valid_counter d →
  nextListenerId (run_setup script d).1
  = ((nextListenerId d + Z.of_nat (subscriptions script)) `mod` uint64_modulus)%Z.
Proof.
  unfold valid_counter. revert d.
  induction script as [|call script IH]; intros d Hc.
  - simpl. rewrite Z.add_0_r. symmetry. by apply Z.mod_small.
  - destruct call as [ty f prio|ty f prio|h]; cbn [run_setup subscriptions fst].
    + rewrite IH by apply uint64_succ_range. simpl. unfold uint64_succ.
      rewrite Zplus_mod_idemp_l. f_equal. lia.
    + rewrite IH by apply uint64_succ_range. simpl. unfold uint64_succ.
      rewrite Zplus_mod_idemp_l. f_equal. lia.
    + rewrite IH; rewrite nextListenerId_remove; done.
Qed.

Lemma subscriptions_replicate n ty f prio :
  subscriptions (replicate n (DoListen ty f prio)) = n.
Proof. induction n as [|n IH]; simpl; congruence. Qed.

Lemma handles_wrap_from_new :
  ¬ StronglySorted Z.lt
      (run_setup
         (replicate (Z.to_nat uint64_modulus) (DoListen Ping silent 0)
          ++ [DoListen Ping silent 0]) newDispatcher).2.
Proof.
  assert (0 < uint64_modulus)%Z as Hpos by (unfold uint64_modulus; lia).
  assert (valid_counter newDispatcher) as Hv by (unfold valid_counter; simpl; lia).
  rewrite run_setup_app. cbn [snd].
  set (fill := replicate (Z.to_nat uint64_modulus) (DoListen Ping silent 0)).
  assert (subscriptions fill = Z.to_nat uint64_modulus) as Hn
    by apply subscriptions_replicate.
  rewrite (run_setup_handles fill newDispatcher Hv) by (rewrite Hn; simpl; lia).
  cbn [run_setup snd listen addListener].
  rewrite (run_setup_counter fill newDispatcher Hv), Hn. cbn [nextListenerId newDispatcher].
  rewrite Z2Nat.id, Z.add_0_l, Z_mod_same_full by lia.
  intros Hs. apply StronglySorted_app in Hs as (Hcross & _ & _).
  assert (0 < 0)%Z; [|lia].
  apply Hcross; [|apply list_elem_of_here]. apply elem_of_seqZ. lia.
Qed.

(** C8, amended.  From a dispatcher whose counter is [c], a sequence of
    [listen], [listenOnce] and [remove] calls with [n] subscriptions and
    [c + n ≤ 2^64] returns the handles [c, c+1, ..., c+n-1]: strictly
    increasing 64-bit values, pairwise distinct whatever the message types,
    none below [c], so none equal to a handle returned before, removed or
    not. *)
Theorem C8_handles_increasing_until_wrap (script : list Setup) (d : Dispatcher) :
  valid_counter d →
  (nextListenerId d + Z.of_nat (subscriptions script) ≤ uint64_modulus)%Z →
  (run_setup script d).2
  = seqZ (nextListenerId d) (Z.of_nat (subscriptions script))
  ∧ StronglySorted Z.lt (run_setup script d).2
  ∧ NoDup (run_setup script d).2
  ∧ Forall (λ h, (nextListenerId d ≤ h < uint64_modulus)%Z) (run_setup script d).2.
Proof.
  intros Hc Hn. rewrite run_setup_handles by done. split_and!.
  - done.
  - apply seqZ_increasing.
  - apply NoDup_seqZ.
  - apply Forall_seqZ. lia.
Qed.

Lemma C8_handles_increasing_until_wrap_witness :
  (run_setup [DoListen Ping silent 3; DoRemove 0; DoListenOnce Pong silent 0;
              DoListen Ping silent 9] newDispatcher).2 = seqZ 0 3
  ∧ StronglySorted Z.lt
      (run_setup [DoListen Ping silent 3; DoRemove 0; DoListenOnce Pong silent 0;
                  DoListen Ping silent 9] newDispatcher).2
  ∧ NoDup
      (run_setup [DoListen Ping silent 3; DoRemove 0; DoListenOnce Pong silent 0;
                  DoListen Ping silent 9] newDispatcher).2
  ∧ Forall (λ h, (0 ≤ h < uint64_modulus)%Z)
      (run_setup [DoListen Ping silent 3; DoRemove 0; DoListenOnce Pong silent 0;
                  DoListen Ping silent 9] newDispatcher).2.
Proof.
  apply (C8_handles_increasing_until_wrap
           [DoListen Ping silent 3; DoRemove 0; DoListenOnce Pong silent 0;
            DoListen Ping silent 9] newDispatcher).
  - unfold valid_counter, uint64_modulus; simpl. lia.
  - unfold uint64_modulus; simpl. lia.
Defined.

(** ** Once-listeners *)

(** C2 at [once_scene]: one [dispatch(ping)].  The pass copies [[X; O]] and
    calls [X], whose callback dispatches [ping] again; the inner pass skips
    [X] (scheduled), calls [O] and [O] removes itself.  Back in the outer
    pass the copy still holds [O], whose handle is not scheduled any more,
    and [O] is called a second time. *)
Theorem C2_once_listener_invoked_twice :
  (listenOnce Ping silent 5 (listenOnce Ping redispatch 10 newDispatcher).1).2 = 1%Z
  ∧ dispatch 2 ping once_scene = Some (result_of (dispatch 2 ping once_scene))
  ∧ calls (result_of (dispatch 2 ping once_scene)).2 = [(0, 0%Z); (1, 1%Z); (0, 1%Z)]
  ∧ count_fired 1 (result_of (dispatch 2 ping once_scene)).2 = 2
  ∧ hasListener 1 (result_of (dispatch 2 ping once_scene)).1 = false.
Proof. split_and!; vm_compute; reflexivity. Qed.

(** ** The set of scheduled removals is empty at rest *)

Lemma exec_inv steps depth op d d' :
  wf d → exec steps depth op d = Some d' →
  wf d' ∧ listenersScheduledForRemoval d' = listenersScheduledForRemoval d.
Proof.
  intros Hwf. destruct op as [ty f prio|ty f prio|msg|msg| |h|h]; simpl; intros Hr.
  - simplify_eq. split; [by apply wf_listen_user|done].
  - simplify_eq. split; [by apply wf_listenOnce|done].
  - destruct (dispatch depth msg d) as [[d1 t]|] eqn:Hd; simpl in Hr; simplify_eq.
    apply dispatch_inv in Hd as [_ Hd]. by apply Hd.
  - by simplify_eq.
  - destruct (process steps depth d) as [[d1 t]|] eqn:Hp; simpl in Hr; simplify_eq.
    apply process_inv in Hp as (_ & _ & Hp). by apply Hp.
  - simplify_eq. split; [by apply wf_remove|apply scheduled_remove].
  - by simplify_eq.
Qed.

Lemma exec_all_inv steps depth ops d d' :
  wf d → exec_all steps depth ops d = Some d' →
  wf d' ∧ listenersScheduledForRemoval d' = listenersScheduledForRemoval d.
Proof.
  revert d. induction ops as [|op ops IH]; simpl; intros d Hwf Hr.
  - by simplify_eq.
  - destruct (exec steps depth op d) as [d1|] eqn:He; [|done].
    apply exec_inv in He as [Hwf1 Hs1]; [|done].
    apply IH in Hr as [Hwf' Hs']; [|done]. split; [done|congruence].
Qed.

(** Whatever was called on a fresh dispatcher, once the calls have returned
    no removal is scheduled. *)
Lemma at_rest_from_new steps depth ops d :
  exec_all steps depth ops newDispatcher = Some d →
  wf d ∧ listenersScheduledForRemoval d = ∅.
Proof. intros Hr. by apply exec_all_inv in Hr; [|apply wf_new]. Qed.





(** * Further properties of the code *)

(** ** Membership in the registry *)

Lemma elem_of_vector_insert {A} (it : nat) (x y : A) (l : list A) :
  y ∈ vector_insert it x l ↔ y = x ∨ y ∈ l.
Proof.
  unfold vector_insert. rewrite <- (take_drop it l) at 3.
  rewrite !elem_of_app, elem_of_cons. tauto.
Qed.

Lemma registered_addListener h ty l prio d :
  registered h (addListener ty l prio d).1 ↔ h = nextListenerId d ∨ registered h d.
Proof.
  rewrite !registered_lookup. unfold addListener; simpl. split.
  - intros (ty' & vec & e & Hb & He & Hh).
    destruct (decide (ty = ty')) as [<-|Hne].
    + rewrite lookup_insert_eq in Hb. simplify_eq.
      apply elem_of_vector_insert in He as [->|He]; [by left|].
      right. destruct (listenersByType d !! ty) as [vec|] eqn:Hb; simpl in He.
      * by exists ty, vec, e.
      * by apply elem_of_nil in He.
    + rewrite lookup_insert_ne in Hb by done. right. by exists ty', vec, e.
  - intros [->|(ty' & vec & e & Hb & He & Hh)].
    + eexists ty, _, _. rewrite lookup_insert_eq. split; [done|].
      split; [apply elem_of_vector_insert; by left|done].
    + destruct (decide (ty = ty')) as [<-|Hne].
      * eexists ty, _, e. rewrite lookup_insert_eq. split; [done|].
        split; [|done]. apply elem_of_vector_insert. right. by rewrite Hb.
      * exists ty', vec, e. by rewrite lookup_insert_ne.
Qed.

Lemma registered_remove h' h d :
  registered h' (remove h d)
  ↔ registered h' d ∧ (h' ≠ h ∨ h ∈ listenersScheduledForRemoval d).
Proof.
  unfold remove. case_decide as Hs; [tauto|].
  rewrite !registered_lookup; simpl. split.
  - intros (ty & vec & e & Hb & He & Hh). rewrite lookup_fmap in Hb.
    destruct (listenersByType d !! ty) as [v|] eqn:Hv; [|done].
    simpl in Hb. simplify_eq. apply list_elem_of_filter in He as [Hne He].
    split; [by exists ty, v, e|by left].
  - intros [(ty & vec & e & Hb & He & Hh) [Hne|?]]; [|done].
    exists ty, (erase_handle h vec), e. rewrite lookup_fmap, Hb.
    split; [done|]. split; [|done]. apply list_elem_of_filter. by subst.
Qed.

Lemma hasListener_true h d :
  hasListener h d = true ↔ (h ∉ listenersScheduledForRemoval d) ∧ registered h d.
Proof.
  unfold hasListener. case_decide; [split; [done|tauto]|].
  rewrite bool_decide_eq_true. tauto.
Qed.

Lemma bool_ext (b1 b2 : bool) : (b1 = true ↔ b2 = true) → b1 = b2.
Proof. destruct b1, b2; intuition congruence. Qed.

(** X1.  [remove(h)] touches no other handle: for [h' ≠ h] the entry is
    registered after the call exactly when it was before, and
    [hasListener(h')] gives the same answer. *)
Theorem X1_remove_spares_other_handles (h h' : Z) (d : Dispatcher) :
  h' ≠ h →
  (registered h' (remove h d) ↔ registered h' d)
  ∧ hasListener h' (remove h d) = hasListener h' d.
Proof.
  intros Hne. split.
  - rewrite registered_remove. tauto.
  - apply bool_ext. rewrite !hasListener_true, scheduled_remove, registered_remove.
    tauto.
Qed.

Lemma X1_remove_spares_other_handles_witness :
  hasListener 0 (remove 1 remover_scene) = hasListener 0 remover_scene
  ∧ hasListener 0 remover_scene = true
  ∧ hasListener 1 (remove 1 remover_scene) = false.
Proof.
  split_and!; [|by vm_compute..].
  apply (X1_remove_spares_other_handles 1 0 remover_scene). lia.
Defined.

Lemma remove_unscheduled h d :
  h ∉ listenersScheduledForRemoval d →
  remove h d = set_listenersByType (erase_handle h <$> listenersByType d) d.
Proof. intros Hs. unfold remove. by rewrite decide_False. Qed.

Lemma erase_handle_comm h1 h2 (vec : list ListenerEntry) :
  erase_handle h1 (erase_handle h2 vec) = erase_handle h2 (erase_handle h1 vec).
Proof.
  unfold erase_handle. rewrite !list_filter_filter.
  apply list_filter_iff. tauto.
Qed.

(** X2.  Removals commute: the dispatcher reached by [remove(h1)] then
    [remove(h2)] is the one reached in the other order. *)
Theorem X2_remove_commutes (h1 h2 : Z) (d : Dispatcher) :
  remove h1 (remove h2 d) = remove h2 (remove h1 d).
Proof.
  destruct (decide (h1 ∈ listenersScheduledForRemoval d)) as [H1|H1].
  { rewrite (remove_scheduled h1 d H1).
    apply remove_scheduled. by rewrite scheduled_remove. }
  destruct (decide (h2 ∈ listenersScheduledForRemoval d)) as [H2|H2].
  { rewrite (remove_scheduled h2 d H2). symmetry.
    apply remove_scheduled. by rewrite scheduled_remove. }
  rewrite (remove_unscheduled h2 d H2), (remove_unscheduled h1 d H1).
  rewrite !remove_unscheduled by done.
  unfold set_listenersByType; simpl. f_equal.
  rewrite <- !map_fmap_compose. apply map_fmap_ext.
  intros ty vec _. apply erase_handle_comm.
Qed.

(** ** Subscribing and unsubscribing *)

(** X3.  After [listen] (or [listenOnce], whose wrapper is one of the
    listeners [l]), [hasListener] of the returned handle is true unless that
    handle is scheduled for removal; every other handle gets the answer it
    got before, and the buckets of the other message types are untouched. *)
Theorem X3_listen_then_hasListener
    (ty : TypeId) (l : Listener) (prio : Z) (d : Dispatcher) :
  (hasListener (listen ty l prio d).2 (listen ty l prio d).1 = true
   ↔ nextListenerId d ∉ listenersScheduledForRemoval d)
  ∧ (∀ h, h ≠ (listen ty l prio d).2 →
          hasListener h (listen ty l prio d).1 = hasListener h d)
  ∧ (∀ ty', ty' ≠ ty →
          listenersByType (listen ty l prio d).1 !! ty' = listenersByType d !! ty').
Proof.
  unfold listen. split_and!.
  - rewrite hasListener_true, registered_addListener. simpl.
    split; [tauto|]. intros Hs. split; [done|by left].
  - intros h Hne. apply bool_ext.
    rewrite !hasListener_true, registered_addListener. simpl in *. tauto.
  - intros ty' Hne. simpl. by rewrite lookup_insert_ne.
Qed.

Lemma X3_listen_then_hasListener_witness :
  hasListener 1 (listenOnce Ping silent 5 two_listeners).1 = true
  ∧ hasListener 0 (listenOnce Ping silent 5 two_listeners).1
    = hasListener 0 two_listeners
  ∧ listenersByType (listenOnce Ping silent 5 two_listeners).1 !! Pong = None.
Proof.
  destruct (X3_listen_then_hasListener Ping
              (OnceWrapper (nextListenerId two_listeners) silent) 5 two_listeners)
    as (Hnew & Hold & Hty).
  split_and!.
  - apply Hnew. change (1%Z ∉ (∅ : gset Z)). apply not_elem_of_empty.
  - apply Hold. change (0 ≠ 1)%Z. lia.
  - change (listenersByType (listenOnce Ping silent 5 two_listeners).1 !! Pong
            = listenersByType two_listeners !! Pong).
    apply Hty. by vm_compute.
Defined.

Lemma erase_handle_app h (l1 l2 : list ListenerEntry) :
  erase_handle h (l1 ++ l2) = erase_handle h l1 ++ erase_handle h l2.
Proof. apply filter_app. Qed.

Lemma erase_inserted h prio l it (vec : list ListenerEntry) :
  ¬ Exists (λ e, handle e = h) vec →
  erase_handle h (vector_insert it (mkEntry h prio l) vec) = vec.
Proof.
  intros Hn. unfold vector_insert. rewrite erase_handle_app.
  unfold erase_handle at 2. rewrite filter_cons, decide_False by (simpl; tauto).
  fold (erase_handle h (drop it vec)). rewrite <- erase_handle_app, take_drop.
  by apply erase_handle_id.
Qed.

(** X4.  Subscribing and at once removing the returned handle is a round
    trip on the registry when that handle is fresh (held by no entry and not
    scheduled): every bucket holds the entries it held before, in the same
    order; the deferred list and the scheduled set are unchanged.  What the
    round trip leaves behind is the advanced counter and a bucket for [ty],
    empty if there was none. *)
Theorem X4_listen_then_remove
    (ty : TypeId) (l : Listener) (prio : Z) (d : Dispatcher) :
  ¬ registered (nextListenerId d) d →
  nextListenerId d ∉ listenersScheduledForRemoval d →
  listenersByType (remove (listen ty l prio d).2 (listen ty l prio d).1)
  = <[ty := default [] (listenersByType d !! ty)]> (listenersByType d)
  ∧ (∀ ty', default [] (listenersByType
                          (remove (listen ty l prio d).2 (listen ty l prio d).1)
                        !! ty')
            = default [] (listenersByType d !! ty'))
  ∧ queuedDispatches (remove (listen ty l prio d).2 (listen ty l prio d).1)
    = queuedDispatches d
  ∧ listenersScheduledForRemoval
      (remove (listen ty l prio d).2 (listen ty l prio d).1)
    = listenersScheduledForRemoval d
  ∧ nextListenerId (remove (listen ty l prio d).2 (listen ty l prio d).1)
    = uint64_succ (nextListenerId d).
Proof.
  intros Hfresh Hs.
  assert (listenersByType (remove (listen ty l prio d).2 (listen ty l prio d).1)
          = <[ty := default [] (listenersByType d !! ty)]> (listenersByType d))
    as Hreg.
  { rewrite remove_unscheduled by done. unfold listen, addListener; simpl.
    rewrite fmap_insert. rewrite erase_inserted.
    - f_equal. apply map_eq. intros ty'. rewrite lookup_fmap.
      destruct (listenersByType d !! ty') as [vec|] eqn:Hb; simpl; [|done].
      f_equal. apply erase_handle_id. by eapply not_registered_bucket.
    - destruct (listenersByType d !! ty) as [vec|] eqn:Hb; simpl.
      + by eapply not_registered_bucket.
      + by intros ?%Exists_nil. }
  split_and!.
  - done.
  - intros ty'. rewrite Hreg. destruct (decide (ty = ty')) as [<-|Hne].
    + by rewrite lookup_insert_eq.
    + by rewrite lookup_insert_ne.
  - by rewrite queued_remove.
  - by rewrite scheduled_remove.
  - by rewrite nextListenerId_remove.
Qed.

Lemma X4_listen_then_remove_witness :
  listenersByType (remove 1 (listen Pong (User silent) 3 two_listeners).1)
  = <[Pong := []]> (listenersByType two_listeners)
  ∧ default [] (listenersByType
                  (remove 1 (listen Pong (User silent) 3 two_listeners).1) !! Ping)
    = default [] (listenersByType two_listeners !! Ping).
Proof.
  destruct (X4_listen_then_remove Pong (User silent) 3 two_listeners)
    as (Hreg & Hbuckets & _).
  - by_compute.
  - change (1%Z ∉ (∅ : gset Z)). apply not_elem_of_empty.
  - split; [exact Hreg|exact (Hbuckets Ping)].
Defined.

(** ** Handles and order of the registry before the counter wraps *)

Lemma StronglySorted_filter_keep {A} (R : A → A → Prop) (P : A → Prop)
    `{∀ x, Decision (P x)} (l : list A) :
  StronglySorted R l → StronglySorted R (filter P l).
Proof.
  induction 1 as [|x l Hs IH Hall]; [constructor|].
  rewrite filter_cons. case_decide; [|done].
  constructor; [done|]. apply Forall_forall. intros y Hy.
  apply list_elem_of_filter in Hy as [_ Hy].
  by eapply (proj1 (Forall_forall _ _) Hall).
Qed.

Lemma registration_order_descending vec : registration_order vec → descending vec.
Proof.
  unfold registration_order, descending.
  induction 1 as [|x l Hs IH Hall]; constructor; [done|].
  eapply Forall_impl; [exact Hall|]. simpl. intros; lia.
Qed.

Lemma tidy_new : tidy newDispatcher.
Proof.
  unfold tidy, valid_counter, handles_below, unique_handles, newDispatcher,
    uint64_modulus; simpl.
  split_and!; try lia.
  - intros h Hr. apply registered_lookup in Hr as (ty & vec & e & Hb & _).
    simpl in Hb. by rewrite lookup_empty in Hb.
  - intros ty vec Hb. by rewrite lookup_empty in Hb.
  - intros ty1 ty2 vec1 vec2 e1 e2 _ Hb. by rewrite lookup_empty in Hb.
  - intros ty vec Hb. by rewrite lookup_empty in Hb.
Qed.

Lemma handle_vector_insert it (e : ListenerEntry) vec :
  handle <$> vector_insert it e vec ≡ₚ handle e :: (handle <$> vec).
Proof.
  unfold vector_insert. rewrite <- (take_drop it vec) at 3.
  rewrite !fmap_app, fmap_cons. symmetry. apply Permutation_middle.
Qed.

Lemma bucket_registered d ty vec e :
  listenersByType d !! ty = Some vec → e ∈ vec → registered (handle e) d.
Proof. intros Hb He. apply registered_lookup. by exists ty, vec, e. Qed.

Lemma tidy_addListener ty l prio d :
  tidy d → (nextListenerId d + 1 < uint64_modulus)%Z →
  tidy (addListener ty l prio d).1.
Proof.
  intros (Hc & Hbelow & [Hnodup Hcross] & Hord) Hroom.
  unfold valid_counter in Hc.
  set (vec := default [] (listenersByType d !! ty)).
  set (it := find_if (λ e, bool_decide (priority e < prio)%Z) vec).
  set (new := mkEntry (nextListenerId d) prio l).
  assert (∀ e, e ∈ vec → (0 ≤ handle e < nextListenerId d)%Z) as Hvec.
  { intros e He. unfold vec in He.
    destruct (listenersByType d !! ty) as [v|] eqn:Hb; simpl in He.
    - apply Hbelow. by eapply bucket_registered.
    - by apply elem_of_nil in He. }
  assert (registration_order vec) as Hvord.
  { unfold vec. destruct (listenersByType d !! ty) as [v|] eqn:Hb; simpl.
    - by apply (Hord ty).
    - constructor. }
  assert (NoDup (handle <$> vec)) as Hvdup.
  { unfold vec. destruct (listenersByType d !! ty) as [v|] eqn:Hb; simpl.
    - by apply (Hnodup ty).
    - constructor. }
  assert (listenersByType (addListener ty l prio d).1
          = <[ty := vector_insert it new vec]> (listenersByType d)) as Hreg by done.
  split_and!.
  - apply uint64_succ_range.
  - intros h Hr. apply registered_addListener in Hr. simpl.
    rewrite uint64_succ_small by lia.
    destruct Hr as [->|Hr]; [lia|]. specialize (Hbelow h Hr). lia.
  - split.
    + intros ty' v Hb. rewrite Hreg in Hb.
      destruct (decide (ty = ty')) as [<-|Hne].
      * rewrite lookup_insert_eq in Hb. simplify_eq.
        rewrite handle_vector_insert. apply NoDup_cons. split; [|done].
        intros Hin. apply list_elem_of_fmap in Hin as (e & Hh & He).
        specialize (Hvec e He). simpl in Hh. lia.
      * rewrite lookup_insert_ne in Hb by done. by apply (Hnodup ty').
    + assert (∀ ty' v e e', ty' ≠ ty → listenersByType d !! ty' = Some v →
                e ∈ v → e' ∈ vector_insert it new vec → handle e ≠ handle e')
        as Hmix.
      { intros ty' v e e' Hne Hb He He'.
        apply elem_of_vector_insert in He' as [->|He'].
        - simpl. pose proof (Hbelow _ (bucket_registered _ _ _ _ Hb He)). lia.
        - unfold vec in He'.
          destruct (listenersByType d !! ty) as [v'|] eqn:Hb'; simpl in He'.
          + by apply (Hcross ty' ty v v').
          + by apply elem_of_nil in He'. }
      intros ty1 ty2 v1 v2 e1 e2 Hne Hb1 Hb2 He1 He2. rewrite Hreg in Hb1, Hb2.
      destruct (decide (ty = ty1)) as [<-|Hne1];
        destruct (decide (ty = ty2)) as [<-|Hne2]; [done|..].
      * rewrite lookup_insert_eq in Hb1. rewrite lookup_insert_ne in Hb2 by done.
        simplify_eq. intros Heq. by eapply (Hmix ty2 v2 e2 e1).
      * rewrite lookup_insert_eq in Hb2. rewrite lookup_insert_ne in Hb1 by done.
        simplify_eq. by eapply (Hmix ty1 v1 e1 e2).
      * rewrite lookup_insert_ne in Hb1, Hb2 by done.
        by apply (Hcross ty1 ty2 v1 v2).
  - intros ty' v Hb. rewrite Hreg in Hb.
    destruct (decide (ty = ty')) as [<-|Hne];
      [|rewrite lookup_insert_ne in Hb by done; by apply (Hord ty')].
    rewrite lookup_insert_eq in Hb. simplify_eq.
    destruct (insert_position prio vec (registration_order_descending _ Hvord))
      as [Hge Hlt]. fold it in Hge, Hlt.
    pose proof Hvord as Hsplit. rewrite <- (take_drop it vec) in Hsplit.
    apply StronglySorted_app in Hsplit as (Hx & Hs1 & Hs2).
    unfold vector_insert. apply StronglySorted_app; split_and!.
    + intros a b Ha Hb. apply elem_of_cons in Hb as [->|Hb]; [|by apply Hx].
      pose proof (proj1 (Forall_forall _ _) Hge a Ha) as Hpa. simpl in *.
      assert (a ∈ vec) as Hav.
      { rewrite <- (take_drop it vec). apply elem_of_app. by left. }
      specialize (Hvec a Hav). lia.
    + done.
    + constructor; [done|]. eapply Forall_impl; [exact Hlt|]. simpl. intros; lia.
Qed.

Lemma tidy_remove h d : tidy d → tidy (remove h d).
Proof.
  intros (Hc & Hbelow & [Hnodup Hcross] & Hord).
  destruct (decide (h ∈ listenersScheduledForRemoval d)) as [Hs|Hs];
    [by rewrite remove_scheduled|].
  assert (∀ ty v, listenersByType (remove h d) !! ty = Some v →
            ∃ v0, listenersByType d !! ty = Some v0 ∧ v = erase_handle h v0) as Hb.
  { intros ty v Hv. rewrite remove_unscheduled in Hv by done. simpl in Hv.
    rewrite lookup_fmap in Hv. destruct (listenersByType d !! ty) as [v0|]; [|done].
    simpl in Hv. simplify_eq. by exists v0. }
  split_and!.
  - unfold valid_counter. by rewrite nextListenerId_remove.
  - intros h' Hr. apply registered_remove in Hr as [Hr _].
    rewrite nextListenerId_remove. by apply Hbelow.
  - split.
    + intros ty v Hv. apply Hb in Hv as (v0 & Hv0 & ->).
      eapply sublist_NoDup; [by apply (Hnodup ty)|].
      apply fmap_sublist, sublist_filter.
    + intros ty1 ty2 v1 v2 e1 e2 Hne Hb1 Hb2 He1 He2.
      apply Hb in Hb1 as (w1 & Hw1 & ->). apply Hb in Hb2 as (w2 & Hw2 & ->).
      apply list_elem_of_filter in He1 as [_ He1].
      apply list_elem_of_filter in He2 as [_ He2].
      by apply (Hcross ty1 ty2 w1 w2).
  - intros ty v Hv. apply Hb in Hv as (v0 & Hv0 & ->).
    apply StronglySorted_filter_keep. by apply (Hord ty).
Qed.

Lemma run_setup_tidy script d :
  tidy d →
  (nextListenerId d + Z.of_nat (subscriptions script) < uint64_modulus)%Z →
  tidy (run_setup script d).1.
Proof.
  revert d. induction script as [|call script IH]; intros d Ht Hroom; [done|].
  pose proof Ht as (Hc & _). unfold valid_counter in Hc.
  destruct call as [ty f prio|ty f prio|h]; cbn [run_setup subscriptions fst] in *.
  - apply IH; [apply tidy_addListener; [done|lia]|].
    simpl. rewrite uint64_succ_small by lia. lia.
  - apply IH; [apply tidy_addListener; [done|lia]|].
    simpl. rewrite uint64_succ_small by lia. lia.
  - apply IH; [by apply tidy_remove|]. by rewrite nextListenerId_remove.
Qed.

(** X5.  On a dispatcher built from a fresh one by [listen], [listenOnce]
    and [remove] calls with fewer than 2^64 subscriptions, no two entries of
    the registry share a handle, in one bucket or across message types,
    every handle in use is below the counter, and so the handle the next
    subscription returns is held by no entry. *)
Theorem X5_handles_unique_before_wrap (script : list Setup) :
  (Z.of_nat (subscriptions script) < uint64_modulus)%Z →
  unique_handles (run_setup script newDispatcher).1
  ∧ handles_below (run_setup script newDispatcher).1
  ∧ ¬ registered (nextListenerId (run_setup script newDispatcher).1)
        (run_setup script newDispatcher).1.
Proof.
  intros Hroom.
  destruct (run_setup_tidy script newDispatcher tidy_new) as (_ & Hbelow & Hu & _);
    [simpl; lia|].
  split_and!; [done..|]. intros Hr. specialize (Hbelow _ Hr). lia.
Qed.

Lemma X5_handles_unique_before_wrap_witness :
  unique_handles (run_setup setup_script newDispatcher).1
  ∧ handles_below (run_setup setup_script newDispatcher).1
  ∧ ¬ registered (nextListenerId (run_setup setup_script newDispatcher).1)
        (run_setup setup_script newDispatcher).1.
Proof.
  apply (X5_handles_unique_before_wrap setup_script).
  unfold uint64_modulus; simpl; lia.
Defined.

(** X6.  On such a dispatcher every bucket is in descending priority and,
    among entries of equal priority, in ascending handle, that is in the
    order in which they were subscribed. *)
Theorem X6_buckets_in_registration_order
    (script : list Setup) (ty : TypeId) (vec : list ListenerEntry) :
  (Z.of_nat (subscriptions script) < uint64_modulus)%Z →
  listenersByType (run_setup script newDispatcher).1 !! ty = Some vec →
  registration_order vec.
Proof.
  intros Hroom Hb.
  destruct (run_setup_tidy script newDispatcher tidy_new) as (_ & _ & _ & Hord);
    [simpl; lia|].
  by apply (Hord ty).
Qed.

Lemma X6_buckets_in_registration_order_witness :
  (handle <$> default [] (listenersByType (run_setup setup_script newDispatcher).1
                          !! Ping)) = [3; 1; 4]%Z
  ∧ (priority <$> default [] (listenersByType
                                (run_setup setup_script newDispatcher).1 !! Ping))
    = [9; 3; 3]%Z
  ∧ registration_order
      (default [] (listenersByType (run_setup setup_script newDispatcher).1 !! Ping)).
Proof.
  split_and!; [vm_compute; reflexivity..|].
  apply (X6_buckets_in_registration_order setup_script Ping).
  - unfold uint64_modulus; simpl; lia.
  - vm_compute; reflexivity.
Defined.

(** ** The deferred list *)



Lemma process_nothing steps depth d :
  queuedDispatches d = [] → process (S steps) depth d = Some (d, []).
Proof.
  intros Hq. unfold process. cbn [process_loop]. rewrite Hq. simpl.
  destruct d as [m q s n]. simpl in Hq. subst q. done.
Qed.

(** X8.  [process()] on an empty deferred list returns at once and changes
    nothing, whatever is subscribed; so a [process()] issued right after
    one that returned is a no-op. *)
Theorem X8_process_empty_is_no_op (steps depth : nat) (d : Dispatcher) :
  (queuedDispatches d = [] → process (S steps) depth d = Some (d, []))
  ∧ (∀ steps0 depth0 d' t,
       process steps0 depth0 d = Some (d', t) →
       process (S steps) depth d' = Some (d', [])).
Proof.
  split; [apply process_nothing|].
  intros steps0 depth0 d' t Hr. apply process_nothing.
  by apply process_inv in Hr as (Hq & _).
Qed.

Lemma X8_process_empty_is_no_op_witness :
  process 1 0 two_listeners = Some (two_listeners, [])
  ∧ process 1 0 (result_of (process 3 1 requeue_scene)).1
    = Some ((result_of (process 3 1 requeue_scene)).1, []).
Proof.
  split.
  - apply (proj1 (X8_process_empty_is_no_op 0 0 two_listeners)). reflexivity.
  - apply (proj2 (X8_process_empty_is_no_op 0 0 requeue_scene) 3 1 _
             (result_of (process 3 1 requeue_scene)).2).
    vm_compute; reflexivity.
Defined.

(** ** What a once-listener sees of itself *)

(** X9.  While the callback of a once-listener runs, its handle is
    scheduled for removal: a [hasListener] of its own handle at the start of
    the callback answers false, and a [remove] of its own handle there does
    nothing, so the callback continues as if the call had not been made. *)
Theorem X9_once_listener_sees_itself_gone
    (nested_dispatch : Msg → Dispatcher → Run) (listenerId : Z) (f : UserFn)
    (msg : Msg) (d : Dispatcher) :
  (∀ k, f msg = CallHasListener listenerId k →
        call_listener nested_dispatch (OnceWrapper listenerId f) msg d
        = call_listener nested_dispatch (OnceWrapper listenerId (λ _, k false)) msg d)
  ∧ (∀ k, f msg = CallRemove listenerId k →
        call_listener nested_dispatch (OnceWrapper listenerId f) msg d
        = call_listener nested_dispatch (OnceWrapper listenerId (λ _, k)) msg d).
Proof.
  assert (listenerId
            ∈ listenersScheduledForRemoval
                (set_scheduled ({[listenerId]} ∪ listenersScheduledForRemoval d) d))
    as Hin.
  { simpl. apply elem_of_union. left. by apply elem_of_singleton. }
  split; intros k Hf; cbn [call_listener]; rewrite Hf; cbn [run_prog].
  - unfold hasListener at 1. by rewrite decide_True.
  - by rewrite remove_scheduled.
Qed.

Lemma X9_once_listener_sees_itself_gone_witness :
  call_listener (dispatch 1) (OnceWrapper 0 introspective) ping
    (listenOnce Ping introspective 0 newDispatcher).1
  = call_listener (dispatch 1) (OnceWrapper 0 (λ _, CallRemove 0 Return)) ping
      (listenOnce Ping introspective 0 newDispatcher).1
  ∧ queuedDispatches
      (result_of (dispatch 1 ping (listenOnce Ping introspective 0 newDispatcher).1)).1
    = []
  ∧ hasListener 0
      (result_of (dispatch 1 ping (listenOnce Ping introspective 0 newDispatcher).1)).1
    = false.
Proof.
  split_and!; [|vm_compute; reflexivity..].
  exact (proj1 (X9_once_listener_sees_itself_gone (dispatch 1) 0 introspective ping
                  (listenOnce Ping introspective 0 newDispatcher).1)
           (λ b, CallRemove 0 (if b then CallQueue pong Return else Return))
           eq_refl).
Defined.

(** ** Releasing a token more than once *)

Lemma alter_remove_twice h (a : nat) (heap : Heap) :
  alter (remove h) a (alter (remove h) a heap) = alter (remove h) a heap.
Proof.
  apply map_eq. intros b. destruct (decide (a = b)) as [<-|Hne].
  - rewrite !lookup_alter_eq. destruct (heap !! a) as [d|]; simpl; [|done].
    by rewrite remove_idempotent.
  - by rewrite !lookup_alter_ne.
Qed.

(** X12.  A token releases its handle at most once with effect: after
    [Token::remove()] the destructor leaves every dispatcher as it is, and a
    second [Token::remove()] changes neither the token nor any dispatcher. *)
Theorem X12_token_released_once (tok : Token) (heap : Heap) :
  Token_destroy (Token_remove tok heap).1 (Token_remove tok heap).2
  = (Token_remove tok heap).2
  ∧ Token_remove (Token_remove tok heap).1 (Token_remove tok heap).2
    = Token_remove tok heap.
Proof.
  split; [done|]. unfold Token_remove; simpl. f_equal. apply alter_remove_twice.
Qed.

(** ** Once-listeners among callbacks that subscribe nothing *)

Lemma shrinks_refl d : steady_registry d → shrinks d d.
Proof. by split. Qed.

Lemma shrinks_trans d1 d2 d3 : shrinks d1 d2 → shrinks d2 d3 → shrinks d1 d3.
Proof. intros [? H12] [? H23]. split; [done|]. intros h Hr. by apply H12, H23. Qed.

Lemma shrinks_same d d' :
  listenersByType d' = listenersByType d → steady_registry d → shrinks d d'.
Proof.
  intros Heq Hs. unfold shrinks, steady_registry, registered. by rewrite Heq.
Qed.

Lemma shrinks_remove h d : steady_registry d → shrinks d (remove h d).
Proof.
  intros Hs. split.
  - unfold remove. case_decide; [done|]. unfold steady_registry; simpl.
    apply map_Forall_fmap. eapply map_Forall_impl; [exact Hs|]. simpl.
    intros ty vec Hall. apply Forall_forall. intros e He.
    apply list_elem_of_filter in He as [_ He].
    by eapply (proj1 (Forall_forall _ _) Hall).
  - intros h' Hr. by apply registered_remove in Hr as [? _].
Qed.

Lemma steady_registry_new : steady_registry newDispatcher.
Proof. unfold steady_registry, newDispatcher; simpl. apply map_Forall_empty. Qed.

Lemma steady_registry_addListener ty l prio d :
  steady_registry d → steady_listener l → steady_registry (addListener ty l prio d).1.
Proof.
  intros Hc Hl. unfold steady_registry, addListener; simpl.
  apply map_Forall_insert_2; [|done]. unfold vector_insert.
  assert (Forall (λ e, steady_listener (callback e))
            (default [] (listenersByType d !! ty))) as Hb.
  { destruct (listenersByType d !! ty) as [vec|] eqn:Hb; simpl; [|constructor].
    by apply (Hc ty). }
  apply Forall_app; split; [by apply Forall_take|].
  constructor; [done|by apply Forall_drop].
Qed.

Section SteadyCallbacks.
Variable nested_dispatch : Msg → Dispatcher → Run.
Hypothesis nested_inv :
  ∀ msg d r, nested_dispatch msg d = Some r → run_inv d r.
Hypothesis nested_steady :
  ∀ msg d r, steady_registry d → nested_dispatch msg d = Some r → shrinks d r.1.

Lemma run_prog_steady p d r :
  steady p → steady_registry d →
  run_prog nested_dispatch p d = Some r → shrinks d r.1.
Proof.
  intros Hp. revert d r.
  induction Hp as [|msg k _ IH|msg k _ IH|h k _ IH|h k _ IH];
    cbn [run_prog]; intros d r Hs Hr.
  - simplify_eq. by apply shrinks_refl.
  - destruct (nested_dispatch msg d) as [[d1 t1]|] eqn:Hn; [|done].
    destruct (run_prog nested_dispatch k d1) as [[d2 t2]|] eqn:Hk; [|done].
    simplify_eq. pose proof (nested_steady _ _ _ Hs Hn) as H1.
    eapply shrinks_trans; [exact H1|]. apply (IH _ _ (proj1 H1) Hk).
  - destruct (run_prog nested_dispatch k (queue msg d)) as [[d2 t2]|] eqn:Hk; [|done].
    simplify_eq. assert (shrinks d (queue msg d)) as H1 by by apply shrinks_same.
    eapply shrinks_trans; [exact H1|]. apply (IH _ _ (proj1 H1) Hk).
  - pose proof (shrinks_remove h d Hs) as H1.
    eapply shrinks_trans; [exact H1|]. by apply IH; [apply H1|].
  - by eapply IH.
Qed.

Lemma call_listener_steady l msg d r :
  steady_listener l → steady_registry d →
  call_listener nested_dispatch l msg d = Some r → shrinks d r.1.
Proof.
  intros Hl Hs. destruct l as [f|listenerId f]; cbn [call_listener]; intros Hr.
  - by eapply run_prog_steady.
  - destruct (run_prog _ _ _) as [[d2 t]|] eqn:Hb; [|done]. simplify_eq.
    set (d1 := set_scheduled ({[listenerId]} ∪ listenersScheduledForRemoval d) d)
      in *.
    set (d3 := set_scheduled (listenersScheduledForRemoval d2 ∖ {[listenerId]}) d2).
    assert (shrinks d d1) as H1 by by apply shrinks_same.
    assert (shrinks d1 d2) as H2.
    { apply (run_prog_steady (f msg) d1 (d2, t)); [apply Hl|apply H1|done]. }
    assert (shrinks d2 d3) as H3 by (apply shrinks_same; [done|apply H2]).
    assert (shrinks d3 (remove listenerId d3)) as H4
      by (apply shrinks_remove, H3).
    simpl. eauto using shrinks_trans.
Qed.

Lemma dispatch_loop_steady listenersCopy msg d r :
  Forall (λ e, steady_listener (callback e)) listenersCopy → steady_registry d →
  dispatch_loop nested_dispatch listenersCopy msg d = Some r → shrinks d r.1.
Proof.
  intros Hall. revert d r.
  induction Hall as [|e rest He _ IH]; cbn [dispatch_loop]; intros d r Hs Hr.
  - simplify_eq. by apply shrinks_refl.
  - case_decide; [by apply IH|].
    destruct (call_listener _ _ _ _) as [[d1 t1]|] eqn:Hc; [|done].
    destruct (dispatch_loop _ _ _ _) as [[d2 t2]|] eqn:Hl; [|done].
    simplify_eq. pose proof (call_listener_steady _ _ _ _ He Hs Hc) as H1.
    eapply shrinks_trans; [exact H1|]. apply (IH _ _ (proj1 H1) Hl).
Qed.

Lemma dispatch_body_steady msg d r :
  steady_registry d →
  dispatch_body nested_dispatch msg d = Some r → shrinks d r.1.
Proof.
  intros Hs. unfold dispatch_body.
  destruct (listenersByType d !! mtype msg) as [vec|] eqn:Hb; intros Hr.
  - eapply dispatch_loop_steady; [|done..]. by apply (Hs _ _ Hb).
  - simplify_eq. by apply shrinks_refl.
Qed.

End SteadyCallbacks.

Lemma dispatch_steady depth msg d r :
  steady_registry d → dispatch depth msg d = Some r → shrinks d r.1.
Proof.
  revert msg d r. induction depth as [|depth IH]; intros msg d r Hs Hr; [done|].
  rewrite dispatch_unfold in Hr. eapply dispatch_body_steady; [|done..].
  intros msg' d0 r0. apply IH.
Qed.



(** ** Move assignment of tokens *)

(** X11.  [a = std::move(b)] on tokens.  Assigning a token to itself
    changes nothing.  Otherwise [a] first releases what it owns: if it owned
    a handle, that handle is removed from its dispatcher and [hasListener]
    of it is false, and if it owned nothing no dispatcher changes; then [a]
    takes over the dispatcher, handle and ownership of [b], and [b] is left
    owning nothing.  The listener of [b] survives the release when it is on
    the same dispatcher under another handle.  No other token changes. *)
Theorem X11_token_move_assignment
    (this other : nat) (tokens : gmap nat Token) (heap : Heap)
    (t o : Token) (d : Dispatcher) :
  tokens !! this = Some t → tokens !! other = Some o →
  heap !! dispatcher t = Some d →
  (this = other → Token_assign this other tokens heap = Some (tokens, heap))
  ∧ (this ≠ other →
     ∃ tokens' heap',
       Token_assign this other tokens heap = Some (tokens', heap')
       ∧ tokens' !! this = Some o
       ∧ tokens' !! other = Some (mkToken (dispatcher o) (_handle o) false)
       ∧ (∀ a, a ≠ this → a ≠ other → tokens' !! a = tokens !! a)
       ∧ (holdsResource t = false → heap' = heap)
       ∧ (holdsResource t = true →
          heap' !! dispatcher t = Some (remove (_handle t) d)
          ∧ hasListener (_handle t) (remove (_handle t) d) = false
          ∧ (∀ a, a ≠ dispatcher t → heap' !! a = heap !! a)
          ∧ (_handle o ≠ _handle t →
             hasListener (_handle o) (remove (_handle t) d)
             = hasListener (_handle o) d))).
Proof.
  intros Ht Ho Hd. unfold Token_assign. rewrite Ht, Ho. split.
  - intros Heq. by rewrite decide_True.
  - intros Hne. rewrite decide_False by done. eexists _, _. split; [done|].
    unfold Token_move_assign; simpl. split_and!.
    + rewrite lookup_insert_ne, lookup_insert_eq by done. by destruct o.
    + by rewrite lookup_insert_eq.
    + intros a Ha1 Ha2. by rewrite !lookup_insert_ne.
    + by intros ->.
    + intros ->. split_and!.
      * by rewrite lookup_alter_eq, Hd.
      * apply hasListener_remove.
      * intros a Ha. by rewrite lookup_alter_ne.
      * intros Hh. apply bool_ext.
        rewrite !hasListener_true, scheduled_remove, registered_remove. tauto.
Qed.

Lemma X11_token_move_assignment_witness :
  Token_assign 7 7 two_tokens token_heap = Some (two_tokens, token_heap)
  ∧ ∃ tokens' heap',
      Token_assign 7 8 two_tokens token_heap = Some (tokens', heap')
      ∧ tokens' !! 7 = Some (Token_new 4 1)
      ∧ tokens' !! 8 = Some (mkToken 4 1 false)
      ∧ heap' !! 4 = Some (remove 0 (listen Ping (User silent) 5 two_listeners).1)
      ∧ hasListener 0 (remove 0 (listen Ping (User silent) 5 two_listeners).1)
        = false
      ∧ hasListener 1 (remove 0 (listen Ping (User silent) 5 two_listeners).1)
        = hasListener 1 (listen Ping (User silent) 5 two_listeners).1.
Proof.
  destruct (X11_token_move_assignment 7 7 two_tokens token_heap
              (Token_new 4 0) (Token_new 4 0)
              (listen Ping (User silent) 5 two_listeners).1)
    as [Hself _]; [reflexivity..|].
  destruct (X11_token_move_assignment 7 8 two_tokens token_heap
              (Token_new 4 0) (Token_new 4 1)
              (listen Ping (User silent) 5 two_listeners).1)
    as [_ Hmove]; [reflexivity..|].
  split; [by apply Hself|].
  destruct (Hmove ltac:(lia)) as (tokens' & heap' & Hr & H7 & H8 & _ & _ & Hown).
  destruct (Hown eq_refl) as (Hheap & Hgone & _ & Hkept).
  exists tokens', heap'. split_and!; [done..|]. apply Hkept. simpl. lia.
Defined.

(** ** One pass among calm callbacks *)

Section CalmPass.
Variable nested_dispatch : Msg → Dispatcher → Run.
Hypothesis nested_inv :
  ∀ msg d r, nested_dispatch msg d = Some r → run_inv d r.

Lemma calm_dispatch_loop_flat listenersCopy msg d :
  Forall (λ e, calm_listener (callback e)) listenersCopy →
  Forall entry_ok listenersCopy → calm_registry d → wf d →
  ∃ d', dispatch_loop nested_dispatch listenersCopy msg d
        = Some (d', (λ e, EvFire e msg []) <$> filter (λ e, callable e d) listenersCopy)
        ∧ queuedDispatches d' = queuedDispatches d.
Proof.
  intros Hall. revert d.
  induction Hall as [|e rest He _ IH]; intros d Hok Hc Hwf; cbn [dispatch_loop].
  - by exists d.
  - apply Forall_cons in Hok as [Hok0 Hok]. rewrite filter_cons.
    destruct (decide (handle e ∈ listenersScheduledForRemoval d)) as [Hin|Hin].
    + rewrite decide_False by (unfold callable; tauto). by apply IH.
    + rewrite decide_True by done.
      destruct (calm_call_listener nested_dispatch (callback e) msg d He Hc)
        as (d1 & Hcall & Hc1 & Hq1). rewrite Hcall.
      pose proof (call_listener_inv _ nested_inv e msg d _ Hwf Hok0 Hin Hcall)
        as [Hwf1 Hs1]. simpl in *.
      destruct (IH d1 Hok Hc1 Hwf1) as (d2 & -> & Hq2).
      exists d2. split; [|congruence].
      assert (filter (λ e0, callable e0 d1) rest = filter (λ e0, callable e0 d) rest)
        as Hsame.
      { apply list_filter_iff. intros e'. unfold callable. by rewrite Hs1. }
      by rewrite Hsame.
Qed.
End CalmPass.

(** X13.  Among calm callbacks (ones that neither dispatch nor queue; they
    may subscribe, remove others or remove themselves), a [dispatch] on a
    well-formed dispatcher at rest returns, and its call tree is flat: it
    invokes each entry of the bucket exactly once, in bucket order, with
    nothing nested, and leaves the deferred list as it was. *)
Theorem X13_calm_pass_invokes_each_once
    (depth : nat) (msg : Msg) (d : Dispatcher) (vec : list ListenerEntry) :
  wf d → calm_registry d → listenersScheduledForRemoval d = ∅ →
  listenersByType d !! mtype msg = Some vec →
  ∃ d', dispatch (S depth) msg d = Some (d', (λ e, EvFire e msg []) <$> vec)
        ∧ queuedDispatches d' = queuedDispatches d.
Proof.
  intros Hwf Hc Hrest Hb. rewrite dispatch_unfold. unfold dispatch_body. rewrite Hb.
  destruct (calm_dispatch_loop_flat (dispatch depth) (λ m d0 r, dispatch_inv depth m d0 r)
              vec msg d) as (d' & Hr & Hq).
  - by apply (Hc _ _ Hb).
  - by apply (Hwf _ _ Hb).
  - done.
  - done.
  - exists d'. rewrite filter_callable_all in Hr by done. by split.
Qed.

Lemma X13_calm_pass_invokes_each_once_witness :
  ∃ d', dispatch 1 ping remover_scene
        = Some (d', (λ e, EvFire e ping [])
                      <$> default [] (listenersByType remover_scene !! Ping))
        ∧ queuedDispatches d' = queuedDispatches remover_scene.
Proof.
  apply (X13_calm_pass_invokes_each_once 0 ping remover_scene).
  - do 3 apply wf_listen_user. apply wf_new.
  - do 3 (apply calm_registry_addListener; [|intros m; repeat constructor]).
    apply calm_registry_new.
  - reflexivity.
  - vm_compute; reflexivity.
Defined.

(** ** Callbacks that subscribe nothing add no listener *)

Lemma process_loop_steady steps depth it d r :
  steady_registry d → process_loop steps depth it d = Some r → shrinks d r.1.
Proof.
  revert it d r. induction steps as [|steps IH]; intros it d r Hs Hr; [done|].
  cbn [process_loop] in Hr. destruct (queuedDispatches d !! it) as [msg|].
  - destruct (dispatch depth msg d) as [[d1 t1]|] eqn:Hd; [|done].
    destruct (process_loop steps depth (S it) d1) as [[d2 t2]|] eqn:Hl; [|done].
    simplify_eq. pose proof (dispatch_steady _ _ _ _ Hs Hd) as H1.
    eapply shrinks_trans; [exact H1|]. apply (IH _ _ _ (proj1 H1) Hl).
  - simplify_eq. by apply shrinks_refl.
Qed.

(** X14.  When no subscribed callback subscribes anything, [dispatch] and
    [process] add no listener: every handle registered when they return was
    registered when they started, so a handle that has been removed stays
    removed, and the callbacks left are still of that kind. *)
Theorem X14_no_listener_appears (steps depth : nat) (d : Dispatcher) :
  steady_registry d →
  (∀ msg d' t,
     dispatch depth msg d = Some (d', t) →
     steady_registry d' ∧ ∀ h, registered h d' → registered h d)
  ∧ (∀ d' t,
       process steps depth d = Some (d', t) →
       steady_registry d' ∧ ∀ h, registered h d' → registered h d).
Proof.
  intros Hs. split.
  - intros msg d' t Hr. apply (dispatch_steady _ _ _ _ Hs Hr).
  - intros d' t Hr. unfold process in Hr.
    destruct (process_loop steps depth 0 d) as [[d1 t1]|] eqn:Hl; [|done].
    simplify_eq. apply (process_loop_steady _ _ _ _ _ Hs) in Hl as H1.
    apply (shrinks_trans d d1); [done|]. apply shrinks_same; [done|apply H1].
Qed.

Lemma X14_no_listener_appears_witness :
  dispatch 2 ping once_scene = Some (result_of (dispatch 2 ping once_scene))
  ∧ hasListener 0 once_scene = true
  ∧ hasListener 0 (result_of (dispatch 2 ping once_scene)).1 = false
  ∧ ∀ h, registered h (result_of (dispatch 2 ping once_scene)).1 →
         registered h once_scene.
Proof.
  assert (dispatch 2 ping once_scene = Some (result_of (dispatch 2 ping once_scene)))
    as Hrun by (vm_compute; reflexivity).
  split_and!; [exact Hrun|vm_compute; reflexivity..|].
  refine (proj2 (proj1 (X14_no_listener_appears 0 2 once_scene _) ping
                   (result_of (dispatch 2 ping once_scene)).1
                   (result_of (dispatch 2 ping once_scene)).2 Hrun)).
  do 2 (apply steady_registry_addListener; [|intros m; repeat constructor]).
  apply steady_registry_new.
Defined.
